(** * GT48: the 48-bit timestamp generator and its Base64URL codec

  A shallow embedding of [src/timestamp.js]: the JavaScript values the
  library inspects, its error classes, the codec
  ([encodeBase64URL48], [decodeTimestamp48], [isValidTimestamp]), the
  constructor of [TimestampGenerator] with [_validateConfig], and
  [generateRaw] driven by an explicit sequence of clock readings. *)

From Stdlib Require Import ZArith QArith Lia.
From stdpp Require Import base option list sorting strings gmap.

Local Open Scope Z_scope.

(** ** JavaScript values *)

Module JS.

(** A JavaScript string is a sequence of UTF-16 code units. *)
Abbreviation jsstring := (list nat).

(** The code units of an ASCII literal of the source. *)
Definition lit (s : string) : jsstring :=
  Ascii.nat_of_ascii <$> String.list_ascii_of_string s.

(** Numbers as far as the configuration validation looks at them: a
    finite value, or one of the three values that are not finite. *)
Inductive number :=
| Fin (q : Q)
| NaN
| PosInf
| NegInf.

(** The values a caller can pass.  Of an object or a function the library
    only observes its type and whether its conversion to a string, which
    runs the object's own [toString], returns ([stringifies]). *)
Inductive jsval :=
| JUndefined
| JNull
| JBool (b : bool)
| JNum (n : number)
| JBigInt (z : Z)
| JStr (s : jsstring)
| JSymbol (id : nat)
| JObject (id : nat) (stringifies : bool)
| JFunction (id : nat) (stringifies : bool).

Inductive jstype :=
| TUndefined | TObject | TBoolean | TNumber | TBigInt | TString | TSymbol
| TFunction.

Definition typeof (v : jsval) : jstype :=
  match v with
  | JUndefined => TUndefined
  | JNull => TObject
  | JBool _ => TBoolean
  | JNum _ => TNumber
  | JBigInt _ => TBigInt
  | JStr _ => TString
  | JSymbol _ => TSymbol
  | JObject _ _ => TObject
  | JFunction _ _ => TFunction
  end.

(** Whether [`${v}`] returns: the conversion of a Symbol to a string
    throws a [TypeError], and so does that of an object whose [toString]
    throws. *)
Definition convertible (v : jsval) : bool :=
  match v with
  | JSymbol _ => false
  | JObject _ b | JFunction _ b => b
  | _ => true
  end.

#[global] Instance jstype_eq_dec : EqDecision jstype.
Proof. solve_decision. Defined.

(** [Number.isInteger]. *)
Definition Number_isInteger (v : jsval) : bool :=
  match v with
  | JNum (Fin q) => Z.eqb (Z.rem (Qnum q) (Zpos (Qden q))) 0
  | _ => false
  end.

(** The integer a finite integral number denotes. *)
Definition int_of (q : Q) : Z := Qnum q / Zpos (Qden q).

Definition of_int (z : Z) : jsval := JNum (Fin (inject_Z z)).

(** ToBoolean, as used by [if (config.precision && ...)]. *)
Definition truthy (v : jsval) : bool :=
  match v with
  | JUndefined | JNull => false
  | JBool b => b
  | JNum (Fin q) => negb (Z.eqb (Qnum q) 0)
  | JNum NaN => false
  | JNum _ => true
  | JBigInt z => negb (Z.eqb z 0)
  | JStr s => negb (bool_decide (s = []))
  | JSymbol _ | JObject _ _ | JFunction _ _ => true
  end.

(** ** Errors: the classes of the library, and the built-in [TypeError] *)

Inductive encoding_message :=
| MustBe8Characters
| InvalidCharacter (charCode : nat).

Inductive error :=
| InvalidEncodingError (m : encoding_message)
| TimestampRangeError
| InvalidConfigError (field : string)
| TypeError.

(** A computation either returns or throws. *)
Inductive completion (A : Type) :=
| Return (a : A)
| Throw (e : error).
Arguments Return {A} a.
Arguments Throw {A} e.

Definition bind {A B} (c : completion A) (k : A → completion B) : completion B :=
  match c with
  | Return a => k a
  | Throw e => Throw e
  end.

(** [try { body } catch { handler }] with a handler that ignores the
    exception. *)
Definition try_catch {A} (body : completion A) (handler : completion A) : completion A :=
  match body with
  | Return a => Return a
  | Throw _ => handler
  end.

Definition returns {A} (c : completion A) : Prop := ∃ a, c = Return a.
Definition throws {A} (c : completion A) : Prop := ∃ e, c = Throw e.

End JS.

Import JS.

(** ** The codec *)

Module Codec.

Definition MAX_48_BIT : Z := 0xFFFFFFFFFFFF.

Definition BASE64URL_CHARS : jsstring :=
  lit "ABCDEFGHIJKLMNOPQRSTUVWXYZabcdefghijklmnopqrstuvwxyz0123456789-_".

(** [s[i]]: the one-character string at index [i], [None] standing for
    [undefined]. *)
Definition char_at (s : jsstring) (i : nat) : option jsstring :=
  (λ c, [c]) <$> s !! i.

(** [ENCODE_TABLE = new Array(64)], filled by the loop
    [ENCODE_TABLE[i] = BASE64URL_CHARS[i]]. *)
Definition ENCODE_TABLE : list (option jsstring) :=
  foldl (λ tbl i, <[i := char_at BASE64URL_CHARS i]> tbl)
        (replicate 64 None) (seq 0 64).

(** [DECODE_TABLE = new Uint8Array(128)], filled with the marker 255 and
    then by [DECODE_TABLE[BASE64URL_CHARS.charCodeAt(i)] = i]. *)
Definition DECODE_TABLE : list Z :=
  foldl (λ tbl i,
           match BASE64URL_CHARS !! i with
           | Some c => <[c := Z.of_nat i]> tbl
           | None => tbl
           end)
        (replicate 128 255) (seq 0 (length BASE64URL_CHARS)).

(** [tbl[k]] for an integer index [k]. *)
Definition index (tbl : list (option jsstring)) (k : Z) : option jsstring :=
  if k <? 0 then None else mjoin (tbl !! Z.to_nat k).

(** [result.join('')]: holes and [undefined] are rendered as the empty
    string. *)
Definition join (a : list (option jsstring)) : jsstring :=
  concat (default [] <$> a).

(** The loop [for (let i = 7; i >= 0; i--)] of [encodeBase64URL48]; the
    counter of the model is [i + 1]. *)
Fixpoint encode_loop (n : nat) (value : Z) (result : list (option jsstring))
  : list (option jsstring) :=
  match n with
  | O => result
  | S i =>
      encode_loop i (value / 64)
                  (<[i := index ENCODE_TABLE (Z.rem value 64)]> result)
  end.

Definition encodeBase64URL48 (value : Z) : completion jsstring :=
  if (value <? 0) || (value >? MAX_48_BIT) then Throw TimestampRangeError
  else Return (join (encode_loop 8 value (replicate 8 None))).

(** The loop [for (let i = 0; i < 8; i++)] of [decodeTimestamp48] over
    the code units of a string of length 8.  The table has 128 entries, so
    the lookup of a code unit below 128 is always defined. *)
Fixpoint decode_loop (encoded : jsstring) (result : Z) : completion Z :=
  match encoded with
  | [] => Return result
  | charCode :: rest =>
      if (128 <=? charCode)%nat
      then Throw (InvalidEncodingError (InvalidCharacter charCode))
      else
        match DECODE_TABLE !! charCode with
        | Some value =>
            if value =? 255
            then Throw (InvalidEncodingError (InvalidCharacter charCode))
            else decode_loop rest (result * 64 + value)
        | None => Throw (InvalidEncodingError (InvalidCharacter charCode))
        end
  end.

Definition decodeTimestamp48 (encoded : jsval) : completion Z :=
  match encoded with
  | JStr s =>
      if negb (length s =? 8)%nat
      then Throw (InvalidEncodingError MustBe8Characters)
      else decode_loop s 0
  | _ =>
      (* typeof encoded !== 'string' *)
      Throw (InvalidEncodingError MustBe8Characters)
  end.

Definition isValidTimestamp (encoded : jsval) : completion bool :=
  try_catch
    (bind (decodeTimestamp48 encoded) (λ decoded,
       Return ((0 <=? decoded) && (decoded <=? MAX_48_BIT))))
    (Return false).


(** *** Base-64 digits *)

(** The digit a code unit stands for, if it is a symbol of the alphabet:
    the two tests of the decoding loop taken together. *)
Definition digit_of (charCode : nat) : option Z :=
  if (128 <=? charCode)%nat then None
  else match DECODE_TABLE !! charCode with
       | Some value => if value =? 255 then None else Some value
       | None => None
       end.

(** The [n] base-64 digits of [value], most significant first. *)
Fixpoint digits (n : nat) (value : Z) : list Z :=
  match n with
  | O => []
  | S i => digits i (value / 64) ++ [value mod 64]
  end.

(** The number a list of digits denotes, starting from [acc]. *)
Definition value_of (acc : Z) (ds : list Z) : Z :=
  foldl (λ r d, r * 64 + d) acc ds.

Definition is_digit (d : Z) : Prop := 0 ≤ d < 64.

(** The code unit [c] is the symbol of the digit [d]. *)
Definition decodes (c : nat) (d : Z) : Prop := digit_of c = Some d.

End Codec.

(** ** Number arithmetic *)

Module Num.

(** The timestamps, counters and identifiers of the generator are
    JavaScript Numbers holding integers.  A Number is an IEEE-754 binary64
    value: [+] and [*] return the exact result rounded to the nearest
    value with a significand of 53 bits, ties going to the even
    significand.  Integers below [2^53] in magnitude are exact.  A result
    of magnitude [2^1024] or more is [Infinity]; [round_nat] gives the
    finite results. *)
Definition round_nat (x : Z) : Z :=
  if x <? 2 ^ 53 then x
  else
    let e := Z.log2 x - 52 in
    let q := x / 2 ^ e in
    let r := x mod 2 ^ e in
    let half := 2 ^ (e - 1) in
    if (r <? half) || ((r =? half) && Z.even q)
    then q * 2 ^ e
    else (q + 1) * 2 ^ e.

Definition fl (x : Z) : Z := Z.sgn x * round_nat (Z.abs x).

Definition add (a b : Z) : Z := fl (a + b).
Definition sub (a b : Z) : Z := fl (a - b).
Definition mul (a b : Z) : Z := fl (a * b).

(** The integers that are Numbers, and the magnitudes of the finite
    ones. *)
Definition representable (x : Z) : Prop := fl x = x.

(** [Math.pow(2, k)] for an integer [k >= 0]. *)
Definition pow2 (k : Z) : Z := 2 ^ k.

End Num.

(** ** Construction of a generator *)

Module Config.

(** A configuration object: its own properties. *)
Abbreviation object := (gmap string jsval).

(** [config.field]: [undefined] when the property is absent. *)
Definition get (config : object) (field : string) : jsval :=
  default JUndefined (config !! field).

Definition DEFAULT_CONFIG : object :=
  <["precision" := JStr (lit "milliseconds")]>
  (<["monotonic" := JBool true]>
  (<["format" := JStr (lit "base64url")]>
  (<["sequenceBits" := of_int 8]>
  (<["useHighResTime" := JBool false]> ∅)))).

(** [[...].includes(v)] on an array of string literals. *)
Definition includes (xs : list jsstring) (v : jsval) : bool :=
  match v with
  | JStr s => bool_decide (s ∈ xs)
  | _ => false
  end.

Definition is_undefined (v : jsval) : bool :=
  match v with JUndefined => true | _ => false end.

(** [v < k] and [v > k] against an integer literal; by the short-circuit
    of [||] they are evaluated on integral Numbers only. *)
Definition lt_int (v : jsval) (k : Z) : bool :=
  match v with
  | JNum (Fin q) => negb (Qle_bool (inject_Z k) q)
  | JNum NegInf => true
  | _ => false
  end.

Definition gt_int (v : jsval) (k : Z) : bool :=
  match v with
  | JNum (Fin q) => negb (Qle_bool q (inject_Z k))
  | JNum PosInf => true
  | _ => false
  end.

(** [throw new InvalidConfigError(`Invalid field: ${v}. ...`)]: the
    message is built first, and building it converts [v] to a string. *)
Definition throw_invalid (field : string) (v : jsval) : completion unit :=
  if convertible v then Throw (InvalidConfigError field) else Throw TypeError.

Definition check_precision (config : object) : completion unit :=
  if truthy (get config "precision")
     && negb (includes [lit "seconds"; lit "milliseconds"; lit "nanoseconds"]
                       (get config "precision"))
  then throw_invalid "precision" (get config "precision")
  else Return ().

Definition check_format (config : object) : completion unit :=
  if truthy (get config "format")
     && negb (includes [lit "base64url"; lit "hex"; lit "binary"]
                       (get config "format"))
  then throw_invalid "format" (get config "format")
  else Return ().

Definition check_monotonic (config : object) : completion unit :=
  if negb (is_undefined (get config "monotonic"))
     && negb (bool_decide (typeof (get config "monotonic") = TBoolean))
  then throw_invalid "monotonic" (get config "monotonic")
  else Return ().

Definition check_useHighResTime (config : object) : completion unit :=
  if negb (is_undefined (get config "useHighResTime"))
     && negb (bool_decide (typeof (get config "useHighResTime") = TBoolean))
  then throw_invalid "useHighResTime" (get config "useHighResTime")
  else Return ().

Definition check_sequenceBits (config : object) : completion unit :=
  if negb (is_undefined (get config "sequenceBits"))
  then
    if negb (Number_isInteger (get config "sequenceBits"))
       || lt_int (get config "sequenceBits") 1
       || gt_int (get config "sequenceBits") 16
    then throw_invalid "sequenceBits" (get config "sequenceBits")
    else Return ()
  else Return ().

(** [_validateConfig]: the five checks in the order of the source. *)
Definition validateConfig (config : object) : completion unit :=
  bind (check_precision config) (λ _,
  bind (check_format config) (λ _,
  bind (check_monotonic config) (λ _,
  bind (check_useHighResTime config) (λ _,
  check_sequenceBits config)))).

(** [Math.pow(2, v) - 1] on the values the constructor passes to it: a
    validated integer, or [undefined]. *)
Definition pow2_minus_1 (v : jsval) : number :=
  match v with
  | JNum (Fin q) => Fin (inject_Z (2 ^ int_of q - 1))
  | _ => NaN
  end.

(** The fields of a constructed [TimestampGenerator]. *)
Record instance := {
  config : object;
  lastTimestamp : Z;
  sequenceCounter : Z;
  maxSequence : number;
  generatedCount : Z;
  overflowCount : Z
}.

(** [new TimestampGenerator(config)].  The spread
    [{ ...DEFAULT_CONFIG, ...config }] keeps every own property of
    [config], also one whose value is [undefined]. *)
Definition construct (cfg : object) : completion instance :=
  bind (validateConfig cfg) (λ _,
    let merged := cfg ∪ DEFAULT_CONFIG in
    Return {| config := merged;
              lastTimestamp := 0;
              sequenceCounter := 0;
              maxSequence := pow2_minus_1 (get merged "sequenceBits");
              generatedCount := 0;
              overflowCount := 0 |}).

(** A value that is an integer between 1 and 16. *)
Definition valid_sequenceBits (v : jsval) : Prop :=
  ∃ (q : Q) (n : Z), v = JNum (Fin q) ∧ Qeq q (inject_Z n) ∧ 1 ≤ n ≤ 16.

(** The four other fields pass their checks. *)
Definition others_valid (cfg : object) : Prop :=
  check_precision cfg = Return () ∧ check_format cfg = Return ()
  ∧ check_monotonic cfg = Return () ∧ check_useHighResTime cfg = Return ().

End Config.

(** ** The generator *)

Module Generator.

Import Codec.

(** The state of a [TimestampGenerator] whose [config.sequenceBits] is an
    integer, as the constructor leaves it for every validated width. *)
Record TimestampGenerator := {
  sequenceBits : Z;
  lastTimestamp : Z;
  sequenceCounter : Z;
  maxSequence : Z;
  generatedCount : Z;
  overflowCount : Z
}.

Definition set_lastTimestamp (g : TimestampGenerator) (v : Z) :=
  {| sequenceBits := sequenceBits g; lastTimestamp := v;
     sequenceCounter := sequenceCounter g; maxSequence := maxSequence g;
     generatedCount := generatedCount g; overflowCount := overflowCount g |}.

Definition set_sequenceCounter (g : TimestampGenerator) (v : Z) :=
  {| sequenceBits := sequenceBits g; lastTimestamp := lastTimestamp g;
     sequenceCounter := v; maxSequence := maxSequence g;
     generatedCount := generatedCount g; overflowCount := overflowCount g |}.

Definition set_generatedCount (g : TimestampGenerator) (v : Z) :=
  {| sequenceBits := sequenceBits g; lastTimestamp := lastTimestamp g;
     sequenceCounter := sequenceCounter g; maxSequence := maxSequence g;
     generatedCount := v; overflowCount := overflowCount g |}.

Definition set_overflowCount (g : TimestampGenerator) (v : Z) :=
  {| sequenceBits := sequenceBits g; lastTimestamp := lastTimestamp g;
     sequenceCounter := sequenceCounter g; maxSequence := maxSequence g;
     generatedCount := generatedCount g; overflowCount := v |}.

(** The instance [new TimestampGenerator({ sequenceBits: w })] builds. *)
Definition create (w : Z) : TimestampGenerator :=
  {| sequenceBits := w;
     lastTimestamp := 0;
     sequenceCounter := 0;
     maxSequence := Num.sub (Num.pow2 w) 1;
     generatedCount := 0;
     overflowCount := 0 |}.

(** The state of a constructed instance whose [sequenceBits] is an
    integral Number. *)
Definition of_instance (i : Config.instance) : option TimestampGenerator :=
  match Config.get (Config.config i) "sequenceBits", Config.maxSequence i with
  | JNum (Fin q), Fin m =>
      if Number_isInteger (JNum (Fin q))
      then Some {| sequenceBits := int_of q;
                   lastTimestamp := Config.lastTimestamp i;
                   sequenceCounter := Config.sequenceCounter i;
                   maxSequence := int_of m;
                   generatedCount := Config.generatedCount i;
                   overflowCount := Config.overflowCount i |}
      else None
  | _, _ => None
  end.

(** The clock source: the readings the coming calls of
    [_getCurrentTime()] return, in order.  The readings are integral
    Numbers, as [Date.now() - EPOCH_OFFSET] is. *)
Abbreviation clock := (list Z).

(** How a call of [generateRaw] ends on the readings it is given: it
    returns a value, it throws, or it is still polling the clock when the
    readings end.  The first two carry the state and the readings left. *)
Inductive outcome :=
| Returned (value : Z) (g : TimestampGenerator) (rest : clock)
| Threw (e : error) (g : TimestampGenerator) (rest : clock)
| Polling (g : TimestampGenerator).

(** [do { nextTimestamp = this._getCurrentTime(); }
     while (nextTimestamp <= this.lastTimestamp);] *)
Fixpoint poll (last : Z) (c : clock) : option (Z * clock) :=
  match c with
  | [] => None
  | nextTimestamp :: rest =>
      if nextTimestamp <=? last then poll last rest
      else Some (nextTimestamp, rest)
  end.

(** [Math.floor(MAX_48_BIT / Math.pow(2, sequenceBits))]: the quotient by
    a power of two is exact, so the floor is the integer quotient. *)
Definition maxTimestamp (g : TimestampGenerator) : Z :=
  MAX_48_BIT / Num.pow2 (sequenceBits g).

(** [(time * Math.pow(2, sequenceBits)) + sequence] *)
Definition pack (g : TimestampGenerator) (time sequence : Z) : Z :=
  Num.add (Num.mul time (Num.pow2 (sequenceBits g))) sequence.

Definition generateRaw (g : TimestampGenerator) (c : clock) : outcome :=
  match c with
  | [] => Polling g
  | now :: c =>
      if now >? maxTimestamp g then Threw TimestampRangeError g c
      else if now <? 0 then Threw TimestampRangeError g c
      else if now =? lastTimestamp g then
        let g := set_sequenceCounter g (Num.add (sequenceCounter g) 1) in
        if sequenceCounter g >? maxSequence g then
          let g := set_overflowCount g (Num.add (overflowCount g) 1) in
          match poll (lastTimestamp g) c with
          | None => Polling g
          | Some (nextTimestamp, c) =>
              let g := set_sequenceCounter g 0 in
              let g := set_lastTimestamp g nextTimestamp in
              let g := set_generatedCount g (Num.add (generatedCount g) 1) in
              Returned (pack g (lastTimestamp g) (sequenceCounter g)) g c
          end
        else
          let g := set_generatedCount g (Num.add (generatedCount g) 1) in
          Returned (pack g now (sequenceCounter g)) g c
      else if now >? lastTimestamp g then
        let g := set_lastTimestamp g now in
        let g := set_sequenceCounter g 0 in
        let g := set_generatedCount g (Num.add (generatedCount g) 1) in
        Returned (pack g now (sequenceCounter g)) g c
      else
        let g := set_sequenceCounter g (Num.add (sequenceCounter g) 1) in
        if sequenceCounter g >? maxSequence g then
          let g := set_overflowCount g (Num.add (overflowCount g) 1) in
          match poll (lastTimestamp g) c with
          | None => Polling g
          | Some (nextTimestamp, c) =>
              let g := set_lastTimestamp g nextTimestamp in
              let g := set_sequenceCounter g 0 in
              let g := set_generatedCount g (Num.add (generatedCount g) 1) in
              Returned (pack g (lastTimestamp g) (sequenceCounter g)) g c
          end
        else
          let g := set_generatedCount g (Num.add (generatedCount g) 1) in
          Returned (pack g (lastTimestamp g) (sequenceCounter g)) g c
  end.

(** [n] calls in a row, each one returning: the values in call order, the
    final state and the readings left.  [None] when one of the calls
    throws or is left polling. *)
Fixpoint calls (n : nat) (g : TimestampGenerator) (c : clock)
  : option (list Z * TimestampGenerator * clock) :=
  match n with
  | O => Some ([], g, c)
  | S n =>
      match generateRaw g c with
      | Returned v g c =>
          match calls n g c with
          | Some (vs, g, c) => Some (v :: vs, g, c)
          | None => None
          end
      | _ => None
      end
  end.

(** The two fields of a packed identifier, as [generateRawValue] extracts
    the first: [Math.floor(rawValue / Math.pow(2, sequenceBits))]. *)
Definition time_component (w value : Z) : Z := value / Num.pow2 w.
Definition sequence_value (w value : Z) : Z := value mod Num.pow2 w.

(** Strictly increasing in call order: each later value is greater than
    every earlier one. *)
Definition strictly_increasing (vs : list Z) : Prop :=
  ∀ i j a b, (i < j)%nat → vs !! i = Some a → vs !! j = Some b → a < b.

(** The invariant of the states a generator reaches while its timestamps
    stay within [maxTimestamp]. *)
Record wf (g : TimestampGenerator) : Prop := {
  wf_bits : 1 ≤ sequenceBits g ≤ 16;
  wf_max : maxSequence g = 2 ^ sequenceBits g - 1;
  wf_seq : 0 ≤ sequenceCounter g ≤ maxSequence g;
  wf_last : 0 ≤ lastTimestamp g ≤ maxTimestamp g
}.

(** The identifier the state stands at: the last one issued, once one has
    been issued. *)
Definition id_of (g : TimestampGenerator) : Z :=
  lastTimestamp g * 2 ^ sequenceBits g + sequenceCounter g.

Definition same_config (g g' : TimestampGenerator) : Prop :=
  sequenceBits g' = sequenceBits g ∧ maxSequence g' = maxSequence g.

End Generator.

(** ** The functions around the generator and the codec *)

Module Api.

Import Codec Generator.

(** [new Date('2024-01-01T00:00:00.000Z').getTime()]: 19723 days of
    86400000 milliseconds after the Unix epoch. *)
Definition EPOCH_OFFSET : Z := 19723 * 86400000.

(** [DEFAULT_CONFIG.sequenceBits] *)
Definition DEFAULT_sequenceBits : Z := 8.

(** *** Arguments *)

(** A value that is not an object with properties of its own; the guards
    of the functions observe its type only. *)
Inductive plain :=
| PUndefined
| PNull
| PBoolean (b : bool)
| PNumber (n : number)
| PBigInt (z : Z)
| PString (s : jsstring)
| PSymbol (id : nat)
| PFunction (id : nat).

Definition typeof_plain (p : plain) : jstype :=
  match p with
  | PUndefined => TUndefined
  | PNull => TObject
  | PBoolean _ => TBoolean
  | PNumber _ => TNumber
  | PBigInt _ => TBigInt
  | PString _ => TString
  | PSymbol _ => TSymbol
  | PFunction _ => TFunction
  end.

(** What a caller passes for an [options] or [config] parameter: an object,
    given by the properties the function reads, or any other value
    ([PUndefined] when the argument is omitted). *)
Inductive argument (O : Type) :=
| Plain (p : plain)
| Object (o : O).
Arguments Plain {O} p.
Arguments Object {O} o.

(** The default [= {}] of a parameter. *)
Definition with_default {O} (empty : O) (a : argument O) : argument O :=
  match a with
  | Plain PUndefined => Object empty
  | _ => a
  end.

(** [a !== null && typeof a !== 'object'] *)
Definition neither_null_nor_object {O} (a : argument O) : bool :=
  match a with
  | Plain PNull => false
  | Plain p => negb (bool_decide (typeof_plain p = TObject))
  | Object _ => false
  end.

(** The property [options.generator]: a falsy value (absent, [undefined],
    [null]), an instance of [TimestampGenerator], or a truthy value that
    is no instance. *)
Inductive generator_property :=
| NoGenerator
| Instance (g : TimestampGenerator)
| Foreign.

Record options := {
  generator : generator_property;
  format : jsval
}.

Definition no_options : options :=
  {| generator := NoGenerator; format := JUndefined |}.

(** [options.generator || defaultGenerator], and whether the value is an
    instance of [TimestampGenerator] ([None] when it is not). *)
Definition select (defaultGenerator : TimestampGenerator)
    (p : generator_property) : option TimestampGenerator :=
  match p with
  | NoGenerator => Some defaultGenerator
  | Instance g => Some g
  | Foreign => None
  end.

(** *** Results *)

(** What [generateTimestamp48] returns: a string or the raw number. *)
Inductive output :=
| Text (s : jsstring)
| Numeric (value : Z).

(** How a call that may advance a generator ends.  [used] is the state,
    after the call, of the generator the call worked on: the default one
    or the instance of [options.generator]; it is [None] when the call
    threw before it selected a generator. *)
Inductive result (A : Type) :=
| Done (a : A) (used : TimestampGenerator) (rest : clock)
| Failed (e : error) (used : option TimestampGenerator) (rest : clock)
| Blocked (used : TimestampGenerator).
Arguments Done {A} a used rest.
Arguments Failed {A} e used rest.
Arguments Blocked {A} used.

(** *** Hexadecimal text *)

Definition HEX_DIGITS : jsstring := lit "0123456789abcdef".

Definition hex_char (d : Z) : nat :=
  default 0%nat (HEX_DIGITS !! Z.to_nat d).

Fixpoint toString16_loop (fuel : nat) (v : Z) (acc : jsstring) : jsstring :=
  match fuel with
  | O => acc
  | S fuel =>
      let acc := hex_char (v mod 16) :: acc in
      if v / 16 =? 0 then acc else toString16_loop fuel (v / 16) acc
  end.

(** [v.toString(16)] for an integer [v >= 0]: its hexadecimal digits,
    the most significant first, without leading zeros. *)
Definition toString16 (v : Z) : jsstring :=
  toString16_loop (S (Z.to_nat (Z.log2 v))) v [].

(** [s.padStart(n, '0')] *)
Definition padStart (n : nat) (s : jsstring) : jsstring :=
  replicate (n - length s) 48%nat ++ s.

(** The number a string of hexadecimal digits denotes, starting from
    [acc]; [None] when a character is no digit. *)
Fixpoint hex_value (acc : Z) (s : jsstring) : option Z :=
  match s with
  | [] => Some acc
  | c :: s =>
      match list_find (λ x, x = c) HEX_DIGITS with
      | Some (i, _) => hex_value (acc * 16 + Z.of_nat i) s
      | None => None
      end
  end.

(** *** generateTimestamp48 *)

Definition FORMATS : list jsstring := [lit "base64url"; lit "hex"; lit "number"].

(** [case 'text':] of the [switch]: strict equality with a string. *)
Definition is_string (text : jsstring) (v : jsval) : bool :=
  match v with
  | JStr s => bool_decide (s = text)
  | _ => false
  end.

(** [throw new InvalidConfigError(`Invalid format: ${format}. ...`)] *)
Definition invalid_format (format : jsval) : error :=
  if convertible format then InvalidConfigError "format" else TypeError.

Definition generateTimestamp48 (defaultGenerator : TimestampGenerator)
    (a : argument options) (c : clock) : result output :=
  let a := with_default no_options a in
  if neither_null_nor_object a
  then Failed (InvalidConfigError "options") None c
  else
    match a with
    | Plain _ =>
        (* [options.generator] on [null] *)
        Failed TypeError None c
    | Object o =>
        match select defaultGenerator (generator o) with
        | None => Failed (InvalidConfigError "generator") None c
        | Some g =>
            match generateRaw g c with
            | Threw e g rest => Failed e (Some g) rest
            | Polling g => Blocked g
            | Returned rawValue g rest =>
                let fmt :=
                  if truthy (format o) then format o
                  else JStr (lit "base64url") in
                if negb (Config.includes FORMATS fmt)
                then Failed (invalid_format fmt) (Some g) rest
                else if is_string (lit "base64url") fmt then
                  match encodeBase64URL48 rawValue with
                  | Return t => Done (Text t) g rest
                  | Throw e => Failed e (Some g) rest
                  end
                else if is_string (lit "hex") fmt then
                  Done (Text (padStart 12 (toString16 rawValue))) g rest
                else Done (Numeric rawValue) g rest
            end
        end
    end.

(** *** generateRawTimestamp, generateRawValue *)

(** Both take [options] as the type declaration has it: [generator] is
    absent ([None]) or an instance. *)
Definition chosen (defaultGenerator : TimestampGenerator)
    (g : option TimestampGenerator) : TimestampGenerator :=
  default defaultGenerator g.

Definition generateRawValue (defaultGenerator : TimestampGenerator)
    (g : option TimestampGenerator) (c : clock) : result Z :=
  match generateRaw (chosen defaultGenerator g) c with
  | Threw e g rest => Failed e (Some g) rest
  | Polling g => Blocked g
  | Returned rawValue g rest =>
      Done (rawValue / Num.pow2 (sequenceBits g)) g rest
  end.

Definition generateRawTimestamp (defaultGenerator : TimestampGenerator)
    (g : option TimestampGenerator) (c : clock) : result Z :=
  match generateRaw (chosen defaultGenerator g) c with
  | Threw e g rest => Failed e (Some g) rest
  | Polling g => Blocked g
  | Returned rawValue g rest =>
      Done (Num.add (rawValue / Num.pow2 (sequenceBits g)) EPOCH_OFFSET) g rest
  end.

(** *** timestampToDate *)

(** A [Date], by the argument of [new Date(...)]. *)
Inductive date :=
| NewDate (actualTimestamp : jsval).

Definition timestampToDate (timestamp : jsval) : completion date :=
  match timestamp with
  | JStr _ =>
      bind (decodeTimestamp48 timestamp) (λ rawValue,
        let timestampOnly := rawValue / Num.pow2 DEFAULT_sequenceBits in
        Return (NewDate (of_int (Num.add timestampOnly EPOCH_OFFSET))))
  | _ => Return (NewDate timestamp)
  end.

(** *** getStats, getTimestampStats *)

(** The snapshot [getStats()] returns: the fields of the instance. *)
Definition getStats (g : TimestampGenerator) : TimestampGenerator := g.

Record timestamp_stats := {
  stats : TimestampGenerator;
  maxValue : Z;
  epochOffset : Z
}.

Definition getTimestampStats (defaultGenerator : TimestampGenerator)
    (a : argument options) : completion timestamp_stats :=
  let a := with_default no_options a in
  if neither_null_nor_object a
  then Throw (InvalidConfigError "options")
  else
    match a with
    | Plain _ => Throw TypeError
    | Object o =>
        match select defaultGenerator (generator o) with
        | None => Throw (InvalidConfigError "generator")
        | Some g =>
            Return {| stats := getStats g;
                      maxValue := MAX_48_BIT;
                      epochOffset := EPOCH_OFFSET |}
        end
    end.

(** *** createGenerator *)

(** [createGenerator(config)]; the constructor reads [config.precision]
    first, which throws a [TypeError] on [null]. *)
Definition createGenerator (a : argument (gmap string jsval))
  : completion Config.instance :=
  let a := with_default (∅ : gmap string jsval) a in
  if neither_null_nor_object a
  then Throw (InvalidConfigError "config")
  else
    match a with
    | Plain _ => Throw TypeError
    | Object config => Config.construct config
    end.

End Api.
(** * Facts about the codec *)

Module CodecFacts.
Import Codec.

Lemma digit_of_sound_check :
  forallb (λ c, match digit_of c with
                | Some v => (0 <=? v) && (v <? 64)
                            && bool_decide (BASE64URL_CHARS !! Z.to_nat v = Some c)
                | None => bool_decide (c ∉ BASE64URL_CHARS)
                end) (seq 0 128) = true.
Proof. vm_compute. reflexivity. Qed.

Lemma digit_of_complete_check :
  forallb (λ i, match BASE64URL_CHARS !! i with
                | Some c => bool_decide (digit_of c = Some (Z.of_nat i))
                            && bool_decide (index ENCODE_TABLE (Z.of_nat i) = Some [c])
                | None => false
                end) (seq 0 64) = true.
Proof. vm_compute. reflexivity. Qed.

Lemma alphabet_below_128 c : c ∈ BASE64URL_CHARS → (c < 128)%nat.
Proof.
  intros Hc.
  assert (H : Forall (λ c, c < 128)%nat BASE64URL_CHARS)
    by (vm_compute; repeat constructor).
  rewrite Forall_forall in H. now apply H.
Qed.

Lemma digit_of_Some c v :
  digit_of c = Some v →
  is_digit v ∧ BASE64URL_CHARS !! Z.to_nat v = Some c.
Proof.
  intros Hd.
  assert (Hlt : (c < 128)%nat).
  { unfold digit_of in Hd. destruct (128 <=? c)%nat eqn:E; [discriminate|].
    apply Nat.leb_gt in E. exact E. }
  pose proof digit_of_sound_check as Hall.
  rewrite forallb_forall in Hall.
  specialize (Hall c). rewrite Hd in Hall.
  assert (Hin : In c (seq 0 128)) by (apply in_seq; lia).
  apply Hall in Hin.
  apply andb_prop in Hin as [Hin H3]. apply andb_prop in Hin as [H1 H2].
  apply bool_decide_eq_true in H3.
  apply Z.leb_le in H1. apply Z.ltb_lt in H2.
  split; [split; assumption | exact H3].
Qed.

Lemma digit_of_None c : digit_of c = None → c ∉ BASE64URL_CHARS.
Proof.
  intros Hd Hc.
  pose proof (alphabet_below_128 c Hc) as Hlt.
  pose proof digit_of_sound_check as Hall.
  rewrite forallb_forall in Hall.
  specialize (Hall c). rewrite Hd in Hall.
  assert (Hin : In c (seq 0 128)) by (apply in_seq; lia).
  apply Hall in Hin. apply bool_decide_eq_true in Hin. contradiction.
Qed.

Lemma table_at_digit d :
  is_digit d →
  ∃ c, BASE64URL_CHARS !! Z.to_nat d = Some c
       ∧ digit_of c = Some d
       ∧ index ENCODE_TABLE d = Some [c].
Proof.
  intros [Hlo Hhi].
  pose proof digit_of_complete_check as Hall.
  rewrite forallb_forall in Hall.
  specialize (Hall (Z.to_nat d)).
  assert (Hin : In (Z.to_nat d) (seq 0 64)) by (apply in_seq; lia).
  apply Hall in Hin.
  destruct (BASE64URL_CHARS !! Z.to_nat d) as [c|]; [|discriminate].
  apply andb_prop in Hin as [H1 H2].
  apply bool_decide_eq_true in H1, H2.
  rewrite Z2Nat.id in H1, H2 by lia. eauto.
Qed.

Lemma alphabet_digit c :
  c ∈ BASE64URL_CHARS → ∃ d, digit_of c = Some d.
Proof.
  intros Hc. destruct (digit_of c) as [d|] eqn:E; [eauto|].
  now apply digit_of_None in E.
Qed.

Lemma digit_alphabet c d : digit_of c = Some d → c ∈ BASE64URL_CHARS.
Proof.
  intros Hd. apply digit_of_Some in Hd as [_ Hl].
  apply list_elem_of_lookup. eauto.
Qed.

(** *** The decoding loop on digits *)

Lemma decode_loop_cons c rest r :
  decode_loop (c :: rest) r =
  match digit_of c with
  | Some v => decode_loop rest (r * 64 + v)
  | None => Throw (InvalidEncodingError (InvalidCharacter c))
  end.
Proof.
  unfold digit_of. cbn [decode_loop].
  destruct (128 <=? c)%nat; [reflexivity|].
  destruct (DECODE_TABLE !! c) as [v|]; [|reflexivity].
  destruct (v =? 255); reflexivity.
Qed.

Lemma decode_loop_digits cs ds r :
  Forall2 decodes cs ds → decode_loop cs r = Return (value_of r ds).
Proof.
  intros H. revert r.
  induction H as [|c d cs ds Hcd _ IH]; intros r; [reflexivity|].
  rewrite decode_loop_cons, Hcd. apply IH.
Qed.

Lemma decode_loop_Return cs r v :
  decode_loop cs r = Return v →
  ∃ ds, Forall2 decodes cs ds ∧ v = value_of r ds.
Proof.
  revert r. induction cs as [|c cs IH]; intros r H.
  - exists []. split; [constructor|]. cbn [decode_loop] in H.
    injection H as <-. reflexivity.
  - rewrite decode_loop_cons in H.
    destruct (digit_of c) as [d|] eqn:Hd; [|discriminate].
    destruct (IH _ H) as (ds & Hds & ->).
    exists (d :: ds). split; [constructor; assumption | reflexivity].
Qed.

Lemma decode_loop_outside cs r c :
  c ∈ cs → c ∉ BASE64URL_CHARS →
  ∃ c', c' ∈ cs ∧ (c' ∉ BASE64URL_CHARS)
        ∧ decode_loop cs r = Throw (InvalidEncodingError (InvalidCharacter c')).
Proof.
  intros Hin Hout. revert r.
  induction cs as [|c0 cs IH]; intros r; [inversion Hin|].
  rewrite decode_loop_cons.
  destruct (digit_of c0) as [d|] eqn:Hd.
  - assert (Hc : c ∈ cs).
    { apply elem_of_cons in Hin as [->|]; [|assumption].
      exfalso. apply Hout. eapply digit_alphabet, Hd. }
    destruct (IH Hc (r * 64 + d)) as (c' & H1 & H2 & H3).
    exists c'. split; [now apply list_elem_of_further | now split].
  - exists c0. split; [apply list_elem_of_here|].
    split; [now apply digit_of_None | reflexivity].
Qed.

Lemma alphabet_decodes cs :
  Forall (λ c, c ∈ BASE64URL_CHARS) cs →
  ∃ ds, Forall2 decodes cs ds.
Proof.
  induction 1 as [|c cs Hc _ [ds IH]]; [exists []; constructor|].
  destruct (alphabet_digit c Hc) as [d Hd].
  exists (d :: ds). now constructor.
Qed.

Lemma decodes_digits cs ds : Forall2 decodes cs ds → Forall is_digit ds.
Proof.
  induction 1 as [|c d cs ds Hcd _ IH]; constructor; [|assumption].
  now apply digit_of_Some in Hcd as [? _].
Qed.

Lemma decodes_alphabet cs ds :
  Forall2 decodes cs ds → Forall (λ c, c ∈ BASE64URL_CHARS) cs.
Proof.
  induction 1 as [|c d cs ds Hcd _ IH]; constructor; [|assumption].
  eapply digit_alphabet, Hcd.
Qed.

Lemma decodes_injective cs cs' ds :
  Forall2 decodes cs ds → Forall2 decodes cs' ds → cs = cs'.
Proof.
  intros H. revert cs'.
  induction H as [|c d cs ds Hcd _ IH]; intros cs' H'; inversion H'; subst;
    [reflexivity|].
  f_equal; [|now apply IH].
  apply digit_of_Some in Hcd as [_ Hc].
  match goal with H : decodes _ d |- _ => apply digit_of_Some in H as [_ Hc'] end.
  congruence.
Qed.

(** *** Arithmetic of the digits *)

Lemma value_of_snoc acc ds d :
  value_of acc (ds ++ [d]) = value_of acc ds * 64 + d.
Proof. unfold value_of. now rewrite foldl_snoc. Qed.

Lemma value_of_bounds ds acc :
  Forall is_digit ds → 0 ≤ acc →
  0 ≤ value_of acc ds < (acc + 1) * 64 ^ Z.of_nat (length ds).
Proof.
  intros H. revert acc.
  induction H as [|d ds [Hlo Hhi] _ IH]; intros acc Hacc.
  - simpl. lia.
  - change (value_of acc (d :: ds)) with (value_of (acc * 64 + d) ds).
    specialize (IH (acc * 64 + d) ltac:(lia)).
    rewrite length_cons, Nat2Z.inj_succ, Z.pow_succ_r by lia.
    assert (0 < 64 ^ Z.of_nat (length ds)) by (apply Z.pow_pos_nonneg; lia).
    nia.
Qed.

Lemma digits_length n v : length (digits n v) = n.
Proof.
  revert v. induction n as [|n IH]; intros v; [reflexivity|].
  simpl. rewrite length_app, IH. simpl. lia.
Qed.

Lemma digits_is_digit n v : Forall is_digit (digits n v).
Proof.
  revert v. induction n as [|n IH]; intros v; [constructor|].
  simpl. apply Forall_app. split; [apply IH|].
  constructor; [|constructor].
  unfold is_digit. pose proof (Z.mod_pos_bound v 64). lia.
Qed.

Lemma digits_value_of ds acc :
  Forall is_digit ds → digits (length ds) (value_of acc ds) = ds.
Proof.
  induction ds as [|d ds IH] using rev_ind; intros H; [reflexivity|].
  apply Forall_app in H as [Hds Hd].
  apply Forall_singleton in Hd as [Hlo Hhi].
  rewrite length_app, Nat.add_1_r, value_of_snoc. simpl.
  rewrite Z.div_add_l by lia.
  rewrite (Z.div_small d 64), Z.add_0_r by lia.
  rewrite Z.add_comm, Z.mod_add by lia.
  rewrite Z.mod_small by lia.
  now rewrite IH.
Qed.

Lemma value_of_digits n v :
  0 ≤ v < 64 ^ Z.of_nat n → value_of 0 (digits n v) = v.
Proof.
  revert v. induction n as [|n IH]; intros v Hv.
  - simpl in *. unfold value_of. simpl. lia.
  - simpl digits. rewrite value_of_snoc.
    rewrite Nat2Z.inj_succ, Z.pow_succ_r in Hv by lia.
    rewrite IH.
    + pose proof (Z.div_mod v 64). lia.
    + split; [apply Z.div_pos; lia|].
      apply Z.div_lt_upper_bound; lia.
Qed.

(** *** The encoding loop on digits *)

Lemma encode_loop_digits n v result :
  (n ≤ length result)%nat → 0 ≤ v →
  encode_loop n v result =
  (index ENCODE_TABLE <$> digits n v) ++ drop n result.
Proof.
  revert v result. induction n as [|i IH]; intros v result Hn Hv.
  - simpl. now rewrite drop_0.
  - simpl encode_loop. simpl digits.
    rewrite IH; [|rewrite length_insert; lia | apply Z.div_pos; lia].
    rewrite fmap_app, <- app_assoc. f_equal. simpl.
    rewrite Z.rem_mod_nonneg by lia.
    rewrite (drop_S _ (index ENCODE_TABLE (v mod 64)) i)
      by (apply list_lookup_insert_eq; lia).
    now rewrite drop_insert_lt by lia.
Qed.

Lemma join_chars cs : join ((λ c, Some [c]) <$> cs) = cs.
Proof.
  unfold join. induction cs as [|c cs IH]; [reflexivity|].
  rewrite !fmap_cons. cbn [concat default app]. now rewrite IH.
Qed.

Lemma digits_encode ds :
  Forall is_digit ds →
  ∃ cs, Forall2 decodes cs ds
        ∧ index ENCODE_TABLE <$> ds = (λ c, Some [c]) <$> cs.
Proof.
  induction 1 as [|d ds Hd _ (cs & Hcs & Heq)]; [exists []; split; [constructor|reflexivity]|].
  destruct (table_at_digit d Hd) as (c & _ & Hc & Hi).
  exists (c :: cs). split; [now constructor|].
  now rewrite !fmap_cons, Hi, Heq.
Qed.

Lemma MAX_48_BIT_pow : MAX_48_BIT = 64 ^ 8 - 1.
Proof. reflexivity. Qed.

Lemma encode_in_range v :
  0 ≤ v ≤ MAX_48_BIT →
  ∃ cs, encodeBase64URL48 v = Return cs ∧ Forall2 decodes cs (digits 8 v).
Proof.
  intros [Hlo Hhi]. unfold encodeBase64URL48.
  assert (E : (v <? 0) || (v >? MAX_48_BIT) = false).
  { apply orb_false_iff. split; [apply Z.ltb_ge; lia|].
    rewrite Z.gtb_ltb. apply Z.ltb_ge. lia. }
  rewrite E.
  rewrite encode_loop_digits by (rewrite ?length_replicate; lia).
  destruct (digits_encode (digits 8 v) (digits_is_digit 8 v)) as (cs & Hcs & Heq).
  exists cs. split; [|assumption].
  rewrite Heq. change (drop 8 (replicate 8 None)) with (@nil (option jsstring)).
  now rewrite app_nil_r, join_chars.
Qed.

Lemma encode_out_of_range v :
  v < 0 ∨ v > MAX_48_BIT → encodeBase64URL48 v = Throw TimestampRangeError.
Proof.
  intros H. unfold encodeBase64URL48.
  assert (E : (v <? 0) || (v >? MAX_48_BIT) = true).
  { apply orb_true_iff. rewrite Z.gtb_ltb, !Z.ltb_lt. lia. }
  now rewrite E.
Qed.

Lemma decode_string s :
  length s = 8%nat → decodeTimestamp48 (JStr s) = decode_loop s 0.
Proof. intros H. unfold decodeTimestamp48. now rewrite H. Qed.

Lemma decode_range encoded v :
  decodeTimestamp48 encoded = Return v → 0 ≤ v ≤ MAX_48_BIT.
Proof.
  unfold decodeTimestamp48.
  destruct encoded as [| | | | |s| | |]; try discriminate.
  destruct (length s =? 8)%nat eqn:E; [|discriminate]. simpl.
  apply Nat.eqb_eq in E. intros H.
  apply decode_loop_Return in H as (ds & Hds & ->).
  pose proof (value_of_bounds ds 0 (decodes_digits _ _ Hds) ltac:(lia)) as Hb.
  rewrite <- (Forall2_length _ _ _ Hds), E in Hb.
  rewrite MAX_48_BIT_pow. simpl Z.of_nat in Hb. lia.
Qed.

End CodecFacts.

(** * Facts about the constructor *)

Module ConfigFacts.
Import Config.

Lemma get_lookup (cfg : gmap string jsval) field v :
  cfg !! field = Some v → get cfg field = v.
Proof. intros H. unfold get. now rewrite H. Qed.

Lemma isInteger_integral q :
  Number_isInteger (JNum (Fin q)) = true ↔ ∃ n : Z, Qeq q (inject_Z n).
Proof.
  unfold Number_isInteger, Qeq. destruct q as [a d]. cbn [Qnum Qden inject_Z].
  rewrite Z.eqb_eq, Z.rem_divide by discriminate. split.
  - intros [k Hk]. exists k. lia.
  - intros [n Hn]. exists n. lia.
Qed.

Lemma lt_int_integral q n k :
  Qeq q (inject_Z n) → lt_int (JNum (Fin q)) k = true ↔ n < k.
Proof.
  unfold lt_int, Qeq. destruct q as [a d]. cbn [Qnum Qden inject_Z]. intros Hq.
  rewrite negb_true_iff, <- not_true_iff_false, Qle_bool_iff.
  unfold Qle. cbn [Qnum Qden inject_Z]. nia.
Qed.

Lemma gt_int_integral q n k :
  Qeq q (inject_Z n) → gt_int (JNum (Fin q)) k = true ↔ k < n.
Proof.
  unfold gt_int, Qeq. destruct q as [a d]. cbn [Qnum Qden inject_Z]. intros Hq.
  rewrite negb_true_iff, <- not_true_iff_false, Qle_bool_iff.
  unfold Qle. cbn [Qnum Qden inject_Z]. nia.
Qed.

(** The three tests on [sequenceBits] accept exactly the integers of
    [[1, 16]]. *)
Lemma range_test_valid v :
  negb (Number_isInteger v) || lt_int v 1 || gt_int v 16 = false
  ↔ valid_sequenceBits v.
Proof.
  rewrite !orb_false_iff, negb_false_iff. split.
  - intros [[Hint Hlt] Hgt].
    destruct v as [| | |[q| | |]| | | | |]; try discriminate.
    apply isInteger_integral in Hint as [n Hn].
    exists q, n. repeat split; [assumption| |].
    + destruct (Z_lt_le_dec n 1) as [H|H]; [|assumption].
      apply (lt_int_integral q n 1 Hn) in H. congruence.
    + destruct (Z_lt_le_dec 16 n) as [H|H]; [|assumption].
      apply (gt_int_integral q n 16 Hn) in H. congruence.
  - intros (q & n & -> & Hn & Hlo & Hhi). repeat split.
    + apply isInteger_integral. now exists n.
    + apply not_true_iff_false. rewrite (lt_int_integral q n 1 Hn). lia.
    + apply not_true_iff_false. rewrite (gt_int_integral q n 16 Hn). lia.
Qed.

Lemma check_sequenceBits_valid cfg v :
  cfg !! "sequenceBits" = Some v → valid_sequenceBits v →
  check_sequenceBits cfg = Return ().
Proof.
  intros Hv Hvalid. unfold check_sequenceBits.
  rewrite (get_lookup _ _ _ Hv).
  apply range_test_valid in Hvalid. rewrite Hvalid.
  now destruct (negb (is_undefined v)).
Qed.

Lemma check_sequenceBits_invalid cfg v :
  cfg !! "sequenceBits" = Some v → v ≠ JUndefined → ¬ valid_sequenceBits v →
  check_sequenceBits cfg = throw_invalid "sequenceBits" v.
Proof.
  intros Hv Hdef Hinvalid. unfold check_sequenceBits.
  rewrite (get_lookup _ _ _ Hv).
  assert (Hu : is_undefined v = false) by (now destruct v).
  rewrite Hu. cbn [negb].
  destruct (negb (Number_isInteger v) || lt_int v 1 || gt_int v 16) eqn:E;
    [reflexivity|].
  now apply range_test_valid in E.
Qed.

Lemma bind_throws {A B} (c : completion A) (k : A → completion B) :
  throws c → throws (bind c k).
Proof. intros [e ->]. now exists e. Qed.

Lemma throw_invalid_throws field v : throws (throw_invalid field v).
Proof. unfold throw_invalid. destruct (convertible v); eexists; reflexivity. Qed.

Lemma throw_invalid_convertible field v :
  convertible v = true → throw_invalid field v = Throw (InvalidConfigError field).
Proof. intros H. unfold throw_invalid. now rewrite H. Qed.

(** [_validateConfig] throws as soon as the check of [sequenceBits]
    does. *)
Lemma validateConfig_throws cfg :
  throws (check_sequenceBits cfg) → throws (validateConfig cfg).
Proof.
  intros Hs. unfold validateConfig.
  unfold check_precision.
  destruct (_ && _); [apply bind_throws, throw_invalid_throws|]. cbn [bind].
  unfold check_format.
  destruct (_ && _); [apply bind_throws, throw_invalid_throws|]. cbn [bind].
  unfold check_monotonic.
  destruct (_ && _); [apply bind_throws, throw_invalid_throws|]. cbn [bind].
  unfold check_useHighResTime.
  destruct (_ && _); [apply bind_throws, throw_invalid_throws|]. cbn [bind].
  exact Hs.
Qed.

(** Every value of the five fields can be converted to a string. *)
Lemma validateConfig_config_error cfg :
  (∀ field, convertible (get cfg field) = true) →
  throws (validateConfig cfg) →
  ∃ field, validateConfig cfg = Throw (InvalidConfigError field).
Proof.
  intros Hconv. unfold validateConfig.
  unfold check_precision, check_format, check_monotonic,
    check_useHighResTime, check_sequenceBits, throw_invalid.
  rewrite !Hconv.
  repeat (match goal with
          | |- context [if ?b then _ else _] => destruct b
          end; cbn [bind]);
    intros [e He]; try discriminate; eauto.
Qed.

Lemma validateConfig_others cfg :
  others_valid cfg → validateConfig cfg = check_sequenceBits cfg.
Proof.
  intros (H1 & H2 & H3 & H4). unfold validateConfig.
  now rewrite H1, H2, H3, H4.
Qed.

Lemma construct_throws cfg e :
  validateConfig cfg = Throw e → construct cfg = Throw e.
Proof. intros H. unfold construct. now rewrite H. Qed.

Lemma construct_throws_iff cfg :
  throws (construct cfg) ↔ throws (validateConfig cfg).
Proof.
  unfold construct. destruct (validateConfig cfg) as [[]|e]; cbn [bind].
  - split; intros [e He]; discriminate.
  - split; intros _; now exists e.
Qed.

Lemma merged_lookup (cfg : gmap string jsval) field v :
  cfg !! field = Some v → (cfg ∪ DEFAULT_CONFIG) !! field = Some v.
Proof. intros H. now apply lookup_union_Some_l. Qed.

(** After validation the merged [sequenceBits] is [undefined] or an integer
    of [[1, 16]]: the only values that reach [Math.pow]. *)
Lemma merged_sequenceBits cfg :
  validateConfig cfg = Return () →
  get (cfg ∪ DEFAULT_CONFIG) "sequenceBits" = JUndefined
  ∨ valid_sequenceBits (get (cfg ∪ DEFAULT_CONFIG) "sequenceBits").
Proof.
  intros Hval.
  assert (Hs : check_sequenceBits cfg = Return ()).
  { unfold validateConfig in Hval.
    destruct (check_precision cfg) as [[]|]; [|discriminate].
    destruct (check_format cfg) as [[]|]; [|discriminate].
    destruct (check_monotonic cfg) as [[]|]; [|discriminate].
    destruct (check_useHighResTime cfg) as [[]|]; [|discriminate].
    exact Hval. }
  destruct (cfg !! "sequenceBits") as [v|] eqn:Hv.
  - rewrite (get_lookup _ _ _ (merged_lookup _ _ _ Hv)).
    unfold check_sequenceBits in Hs. rewrite (get_lookup _ _ _ Hv) in Hs.
    destruct v as [| | | | | | | |]; [now left|right..];
      cbn [is_undefined negb] in Hs;
      match type of Hs with
      | (if ?b then _ else _) = _ =>
          destruct b eqn:E;
            [unfold throw_invalid in Hs; destruct (convertible _); discriminate
            | now apply range_test_valid in E]
      end.
  - right. unfold get.
    rewrite (lookup_union_r cfg DEFAULT_CONFIG _ Hv).
    exists (inject_Z 8), 8. split; [reflexivity | split; [reflexivity | lia]].
Qed.

End ConfigFacts.

(** * Facts about Number arithmetic *)

Module NumFacts.
Import Num.

Lemma round_nat_small x : x < 2 ^ 53 → round_nat x = x.
Proof.
  intros H. unfold round_nat.
  destruct (x <? 2 ^ 53) eqn:E; [reflexivity|].
  apply Z.ltb_ge in E. lia.
Qed.

(** Integers below [2^53] are Numbers. *)
Lemma fl_exact x : 0 ≤ x < 2 ^ 53 → fl x = x.
Proof.
  intros [Hlo Hhi]. unfold fl.
  rewrite Z.abs_eq, round_nat_small by assumption.
  destruct (Z.eq_dec x 0) as [->|Hx]; [reflexivity|].
  rewrite Z.sgn_pos by lia. lia.
Qed.





Lemma add_exact a b : 0 ≤ a + b < 2 ^ 53 → add a b = a + b.
Proof. apply fl_exact. Qed.

Lemma mul_exact a b : 0 ≤ a * b < 2 ^ 53 → mul a b = a * b.
Proof. apply fl_exact. Qed.

Lemma add_0_r a : representable a → add a 0 = a.
Proof. intros H. unfold add. now rewrite Z.add_0_r. Qed.

End NumFacts.

(** * Facts about the generator *)

Module GeneratorFacts.
Import Codec Num NumFacts Generator.

Ltac fields :=
  cbn [sequenceBits lastTimestamp sequenceCounter maxSequence generatedCount
       overflowCount set_lastTimestamp set_sequenceCounter set_generatedCount
       set_overflowCount] in *.

(** *** Widths and bounds *)

Lemma pow2_width w : 1 ≤ w ≤ 16 → 2 ≤ 2 ^ w ≤ 65536.
Proof.
  intros [Hlo Hhi]. split.
  - change 2 with (2 ^ 1) at 1. apply Z.pow_le_mono_r; lia.
  - change 65536 with (2 ^ 16). apply Z.pow_le_mono_r; lia.
Qed.

Lemma maxTimestamp_width w :
  1 ≤ w ≤ 16 → MAX_48_BIT / 2 ^ w = 2 ^ (48 - w) - 1.
Proof.
  intros Hw. pose proof (pow2_width w Hw) as Hp.
  assert (H48 : 2 ^ 48 = 2 ^ (48 - w) * 2 ^ w).
  { rewrite <- Z.pow_add_r by lia. f_equal. lia. }
  symmetry. apply (Z.div_unique _ _ _ (2 ^ w - 1)); [lia|].
  change MAX_48_BIT with (2 ^ 48 - 1). lia.
Qed.

Lemma packed_in_range w t s :
  1 ≤ w ≤ 16 → 0 ≤ t ≤ MAX_48_BIT / 2 ^ w → 0 ≤ s ≤ 2 ^ w - 1 →
  0 ≤ t * 2 ^ w + s ≤ MAX_48_BIT.
Proof.
  intros Hw Ht Hs. pose proof (pow2_width w Hw) as Hp.
  rewrite maxTimestamp_width in Ht by assumption.
  assert (H48 : 2 ^ 48 = 2 ^ (48 - w) * 2 ^ w).
  { rewrite <- Z.pow_add_r by lia. f_equal. lia. }
  change MAX_48_BIT with (2 ^ 48 - 1). nia.
Qed.

Lemma maxTimestamp_nonneg g : 1 ≤ sequenceBits g ≤ 16 → 0 ≤ maxTimestamp g.
Proof.
  intros Hw. unfold maxTimestamp, pow2.
  pose proof (pow2_width _ Hw).
  apply Z.div_pos; [unfold MAX_48_BIT|]; lia.
Qed.

Lemma wf_create w : 1 ≤ w ≤ 16 → wf (create w).
Proof.
  intros Hw. pose proof (pow2_width w Hw) as Hp.
  assert (Hm : Num.sub (pow2 w) 1 = 2 ^ w - 1).
  { unfold Num.sub, pow2. apply fl_exact. lia. }
  split; cbn [create sequenceBits lastTimestamp sequenceCounter maxSequence].
  - assumption.
  - exact Hm.
  - rewrite Hm. lia.
  - split; [lia|]. now apply (maxTimestamp_nonneg (create w)).
Qed.

(** [create w] is the state the constructor builds for the width [w]. *)
Lemma construct_create w :
  1 ≤ w ≤ 16 →
  ∃ inst, Config.construct {[ "sequenceBits" := of_int w ]} = Return inst
          ∧ of_instance inst = Some (create w).
Proof.
  intros Hw. pose proof (pow2_width w Hw) as Hp.
  set (cfg := {[ "sequenceBits" := of_int w ]} : gmap string jsval).
  assert (Hl : cfg !! "sequenceBits" = Some (of_int w)) by reflexivity.
  assert (Ho : Config.others_valid cfg) by (repeat split).
  assert (Hv : Config.valid_sequenceBits (of_int w)).
  { exists (inject_Z w), w. split; [reflexivity | split; [reflexivity | lia]]. }
  unfold Config.construct.
  rewrite (ConfigFacts.validateConfig_others cfg Ho).
  rewrite (ConfigFacts.check_sequenceBits_valid cfg _ Hl Hv). cbn [bind].
  eexists. split; [reflexivity|].
  unfold of_instance.
  cbn [Config.config Config.maxSequence Config.lastTimestamp
       Config.sequenceCounter Config.generatedCount Config.overflowCount].
  rewrite (ConfigFacts.get_lookup _ _ _ (ConfigFacts.merged_lookup _ _ _ Hl)).
  unfold of_int, Config.pow2_minus_1, Number_isInteger, int_of.
  cbn [inject_Z Qnum Qden]. rewrite Z.rem_1_r, !Z.div_1_r. cbn [Z.eqb].
  unfold create, Num.sub, pow2. now rewrite fl_exact by lia.
Qed.

Lemma construct_default :
  ∃ inst, Config.construct ∅ = Return inst
          ∧ of_instance inst = Some (create 8).
Proof. eexists. split; reflexivity. Qed.

(** *** The polling loop *)

Lemma poll_Some last c next rest :
  poll last c = Some (next, rest) →
  last < next ∧ ∃ skipped, c = skipped ++ next :: rest
                           ∧ Forall (λ t, t ≤ last) skipped.
Proof.
  revert next rest. induction c as [|t c IH]; intros next rest H;
    [discriminate|].
  cbn [poll] in H. destruct (Z.leb_spec t last) as [Hle|Hlt].
  - destruct (IH _ _ H) as (Hn & skipped & -> & Hs).
    split; [assumption|]. exists (t :: skipped). split; [reflexivity|].
    now constructor.
  - injection H as <- <-. split; [assumption|]. exists []. now split.
Qed.


(** *** One call *)

Lemma packing_exact w t s :
  1 ≤ w ≤ 16 → 0 ≤ t ≤ MAX_48_BIT / 2 ^ w → 0 ≤ s ≤ 2 ^ w - 1 →
  Num.add (Num.mul t (pow2 w)) s = t * 2 ^ w + s.
Proof.
  intros Hw Ht Hs. unfold pow2.
  pose proof (pow2_width _ Hw) as Hp.
  pose proof (packed_in_range _ t s Hw Ht Hs) as Hr.
  change MAX_48_BIT with (2 ^ 48 - 1) in Hr.
  rewrite mul_exact by nia. apply add_exact. lia.
Qed.

Lemma generateRaw_rejects g now c :
  now > maxTimestamp g ∨ now < 0 →
  generateRaw g (now :: c) = Threw TimestampRangeError g c.
Proof.
  intros H. unfold generateRaw. rewrite Z.gtb_ltb.
  destruct (Z.ltb_spec (maxTimestamp g) now); [reflexivity|].
  destruct (Z.ltb_spec now 0); [reflexivity | lia].
Qed.

Section OneCall.

Variable g : TimestampGenerator.
Hypothesis Hwf : wf g.

Let Hw : 1 ≤ sequenceBits g ≤ 16 := wf_bits g Hwf.
Let Hm : maxSequence g = 2 ^ sequenceBits g - 1 := wf_max g Hwf.
Let Hs : 0 ≤ sequenceCounter g ≤ maxSequence g := wf_seq g Hwf.
Let Hl : 0 ≤ lastTimestamp g ≤ maxTimestamp g := wf_last g Hwf.
Let Hp : 2 ≤ 2 ^ sequenceBits g ≤ 65536 := pow2_width _ Hw.

(** A reading at or behind the last timestamp, with room left in the
    sequence: the counter advances against the retained timestamp. *)
Lemma step_increment now c :
  0 ≤ now ≤ lastTimestamp g → sequenceCounter g < maxSequence g →
  ∃ g', generateRaw g (now :: c) = Returned (id_of g + 1) g' c
        ∧ same_config g g'
        ∧ lastTimestamp g' = lastTimestamp g
        ∧ sequenceCounter g' = sequenceCounter g + 1
        ∧ overflowCount g' = overflowCount g.
Proof.
  intros Hnow Hroom.
  unfold generateRaw, id_of. cbv zeta. fields. unfold pack. fields.
  rewrite !Z.gtb_ltb.
  rewrite !(add_exact (sequenceCounter g) 1) by lia.
  destruct (Z.ltb_spec (maxTimestamp g) now); [lia|].
  destruct (Z.ltb_spec now 0); [lia|].
  destruct (Z.ltb_spec (maxSequence g) (sequenceCounter g + 1)); [lia|].
  destruct (Z.eqb_spec now (lastTimestamp g)) as [->|Hne].
  - eexists. split.
    { f_equal. rewrite packing_exact by (unfold maxTimestamp, pow2 in *; lia). lia. }
    unfold same_config; split_and!; reflexivity.
  - destruct (Z.ltb_spec (lastTimestamp g) now); [lia|].
    eexists. split.
    { f_equal. rewrite packing_exact by (unfold maxTimestamp, pow2 in *; lia). lia. }
    unfold same_config; split_and!; reflexivity.
Qed.

(** A reading ahead of the last timestamp opens a new tick. *)
Lemma step_forward now c :
  lastTimestamp g < now ≤ maxTimestamp g →
  ∃ g', generateRaw g (now :: c) = Returned (now * 2 ^ sequenceBits g) g' c
        ∧ same_config g g'
        ∧ lastTimestamp g' = now
        ∧ sequenceCounter g' = 0
        ∧ overflowCount g' = overflowCount g.
Proof.
  intros Hnow.
  unfold generateRaw. cbv zeta. fields. unfold pack. fields.
  rewrite !Z.gtb_ltb.
  destruct (Z.ltb_spec (maxTimestamp g) now); [lia|].
  destruct (Z.ltb_spec now 0); [lia|].
  destruct (Z.eqb_spec now (lastTimestamp g)); [lia|].
  destruct (Z.ltb_spec (lastTimestamp g) now); [|lia].
  eexists. split.
  { f_equal. rewrite packing_exact by (unfold maxTimestamp, pow2 in *; lia). lia. }
  unfold same_config; split_and!; reflexivity.
Qed.

(** A reading at or behind the last timestamp with the sequence
    exhausted: the overflow is counted and the clock is polled. *)
Lemma step_overflow now c :
  0 ≤ now ≤ lastTimestamp g → sequenceCounter g = maxSequence g →
  match poll (lastTimestamp g) c with
  | Some (next, rest) =>
      ∃ g', generateRaw g (now :: c)
            = Returned (Num.add (Num.mul next (pow2 (sequenceBits g))) 0) g' rest
            ∧ same_config g g'
            ∧ lastTimestamp g' = next
            ∧ sequenceCounter g' = 0
            ∧ overflowCount g' = Num.add (overflowCount g) 1
  | None => ∃ g', generateRaw g (now :: c) = Polling g'
  end.
Proof.
  intros Hnow Hfull.
  unfold generateRaw. cbv zeta. fields. unfold pack. fields.
  rewrite !Z.gtb_ltb.
  rewrite !(add_exact (sequenceCounter g) 1) by lia.
  destruct (Z.ltb_spec (maxTimestamp g) now); [lia|].
  destruct (Z.ltb_spec now 0); [lia|].
  destruct (Z.ltb_spec (maxSequence g) (sequenceCounter g + 1)); [|lia].
  destruct (Z.ltb_spec (lastTimestamp g) now); [lia|].
  destruct (poll (lastTimestamp g) c) as [[next rest]|];
    destruct (Z.eqb_spec now (lastTimestamp g));
    eexists; try reflexivity; (split; [reflexivity | unfold same_config; split_and!; reflexivity]).
Qed.

End OneCall.

(** *** The invariant is kept while the readings stay in range *)

Lemma wf_same_config g g' :
  wf g → same_config g g' →
  0 ≤ sequenceCounter g' ≤ maxSequence g →
  0 ≤ lastTimestamp g' ≤ maxTimestamp g →
  wf g'.
Proof.
  intros [Hw Hm Hs Hl] [Hb Hx] Hs' Hl'.
  split; unfold maxTimestamp in *; rewrite ?Hb, ?Hx; assumption.
Qed.

Lemma maxTimestamp_same_config g g' :
  same_config g g' → maxTimestamp g' = maxTimestamp g.
Proof. intros [Hb _]. unfold maxTimestamp. now rewrite Hb. Qed.

Lemma id_of_bounds g : wf g → 0 ≤ id_of g ≤ MAX_48_BIT.
Proof.
  intros [Hw Hm Hs Hl]. unfold id_of.
  apply packed_in_range; [assumption | exact Hl | lia].
Qed.

Lemma step_in_range g c v g' c' :
  wf g → Forall (λ t, t ≤ maxTimestamp g) c →
  generateRaw g c = Returned v g' c' →
  wf g' ∧ same_config g g' ∧ v = id_of g' ∧ id_of g < v
  ∧ Forall (λ t, t ≤ maxTimestamp g) c'.
Proof.
  intros Hwf Hc Hret.
  destruct c as [|now c]; [discriminate|].
  apply Forall_cons_1 in Hc as [Hnow Hc].
  pose proof Hwf as [Hw Hm Hs Hl].
  pose proof (pow2_width _ Hw) as Hp.
  destruct (Z_lt_le_dec now 0) as [Hneg|Hpos].
  { rewrite generateRaw_rejects in Hret by lia. discriminate. }
  destruct (Z_lt_le_dec (lastTimestamp g) now) as [Hfwd|Hback].
  - destruct (step_forward g Hwf now c ltac:(lia))
      as (g1 & Hg1 & Hcfg & Hlast & Hseq & _).
    rewrite Hg1 in Hret. injection Hret as <- <- <-.
    pose proof Hcfg as [Hb Hx].
    split_and!; try assumption.
    + apply (wf_same_config g); [assumption..| |]; lia.
    + unfold id_of. rewrite Hlast, Hseq, Hb. lia.
    + unfold id_of. nia.
  - destruct (Z_lt_le_dec (sequenceCounter g) (maxSequence g)) as [Hroom|Hfull].
    + destruct (step_increment g Hwf now c ltac:(lia) Hroom)
        as (g1 & Hg1 & Hcfg & Hlast & Hseq & _).
      rewrite Hg1 in Hret. injection Hret as <- <- <-.
      pose proof Hcfg as [Hb Hx].
      split_and!; try assumption.
      * apply (wf_same_config g); [assumption..| |]; lia.
      * unfold id_of. rewrite Hlast, Hseq, Hb. lia.
      * lia.
    + pose proof (step_overflow g Hwf now c ltac:(lia) ltac:(lia)) as Hov.
      destruct (poll (lastTimestamp g) c) as [[next rest]|] eqn:Hpoll.
      * destruct Hov as (g1 & Hg1 & Hcfg & Hlast & Hseq & _).
        rewrite Hg1 in Hret. injection Hret as <- <- <-.
        apply poll_Some in Hpoll as (Hgt & skipped & -> & _).
        apply Forall_app in Hc as [_ Hc].
        apply Forall_cons_1 in Hc as [Hnext Hrest].
        pose proof Hcfg as [Hb Hx].
        assert (Hv : Num.add (Num.mul next (pow2 (sequenceBits g))) 0
                     = next * 2 ^ sequenceBits g).
        { rewrite packing_exact by (unfold maxTimestamp, pow2 in *; lia). lia. }
        split_and!; try assumption.
        -- apply (wf_same_config g); [assumption..| |]; lia.
        -- unfold id_of. rewrite Hv, Hlast, Hseq, Hb. lia.
        -- rewrite Hv. unfold id_of. nia.
      * destruct Hov as [g1 Hg1]. rewrite Hg1 in Hret. discriminate.
Qed.

(** *** Runs of calls *)

Lemma calls_in_range n g c vs g' c' :
  wf g → Forall (λ t, t ≤ maxTimestamp g) c →
  calls n g c = Some (vs, g', c') →
  wf g' ∧ id_of g ≤ id_of g'
  ∧ Forall (λ v, id_of g < v ≤ id_of g') vs
  ∧ StronglySorted Z.lt vs.
Proof.
  revert g c vs g' c'. induction n as [|n IH]; intros g c vs g' c' Hwf Hc H.
  - injection H as <- <- <-. split_and!; [assumption | lia | constructor..].
  - cbn [calls] in H.
    destruct (generateRaw g c) as [v g1 c1| |] eqn:Hstep; try discriminate.
    destruct (calls n g1 c1) as [[[vs1 g2] c2]|] eqn:Hrun; [|discriminate].
    injection H as <- <- <-.
    destruct (step_in_range _ _ _ _ _ Hwf Hc Hstep)
      as (Hwf1 & Hcfg & -> & Hlt & Hc1).
    rewrite <- (maxTimestamp_same_config _ _ Hcfg) in Hc1.
    destruct (IH _ _ _ _ _ Hwf1 Hc1 Hrun) as (Hwf2 & Hle & Hvs & Hsorted).
    split_and!; [assumption | lia | |].
    + constructor; [lia|].
      eapply Forall_impl; [exact Hvs|]. cbn. intros; lia.
    + constructor; [assumption|].
      eapply Forall_impl; [exact Hvs|]. cbn. intros; lia.
Qed.

Lemma sorted_strictly_increasing vs :
  StronglySorted Z.lt vs → strictly_increasing vs.
Proof.
  induction 1 as [|a l _ IH Hall]; intros i j x y Hij Hi Hj.
  - discriminate.
  - destruct j as [|j]; [lia|]. cbn in Hj.
    destruct i as [|i].
    + cbn in Hi. injection Hi as <-.
      rewrite Forall_forall in Hall. apply Hall.
      eapply list_elem_of_lookup_2, Hj.
    + cbn in Hi. apply (IH i j); [lia | assumption..].
Qed.

(** While every reading, polled ones included, stays within
    [maxTimestamp], the values of a run of calls are strictly increasing
    and fit in 48 bits. *)
Theorem in_range_run n w c vs g' c' :
  1 ≤ w ≤ 16 → Forall (λ t, t ≤ MAX_48_BIT / 2 ^ w) c →
  calls n (create w) c = Some (vs, g', c') →
  strictly_increasing vs ∧ Forall (λ v, 0 ≤ v ≤ MAX_48_BIT) vs.
Proof.
  intros Hw Hc H.
  destruct (calls_in_range n _ _ _ _ _ (wf_create w Hw) Hc H)
    as (Hwf & _ & Hvs & Hsorted).
  split; [now apply sorted_strictly_increasing|].
  pose proof (id_of_bounds _ Hwf).
  pose proof (id_of_bounds _ (wf_create w Hw)).
  eapply Forall_impl; [exact Hvs|]. cbn. intros; lia.
Qed.


End GeneratorFacts.

(** * More facts about the generator *)

Module GeneratorMore.
Import Codec Num NumFacts Generator GeneratorFacts.

Ltac finish :=
  first [ reflexivity | lia | left; reflexivity | right; reflexivity
        | intros; lia ].

(** What every returning call does to the state, whatever the state and
    the readings are. *)
Lemma returned_state g c v g' rest :
  generateRaw g c = Returned v g' rest →
  v = pack g' (lastTimestamp g') (sequenceCounter g')
  ∧ same_config g g'
  ∧ lastTimestamp g ≤ lastTimestamp g'
  ∧ generatedCount g' = Num.add (generatedCount g) 1
  ∧ (overflowCount g' = overflowCount g
     ∨ overflowCount g' = Num.add (overflowCount g) 1)
  ∧ (0 ≤ maxSequence g → sequenceCounter g' ≤ maxSequence g).
Proof.
  destruct c as [|now c]; [discriminate|].
  unfold generateRaw. cbv zeta. fields. rewrite !Z.gtb_ltb.
  destruct (Z.ltb_spec (maxTimestamp g) now); [discriminate|].
  destruct (Z.ltb_spec now 0); [discriminate|].
  destruct (Z.eqb_spec now (lastTimestamp g)) as [->|Hne].
  - destruct (Z.ltb_spec (maxSequence g) (Num.add (sequenceCounter g) 1)).
    + destruct (poll (lastTimestamp g) c) as [[next rest']|] eqn:Hp;
        [|discriminate].
      apply poll_Some in Hp as [Hlt _].
      intros [= <- <- <-]. fields. unfold same_config. fields.
      split_and!; finish.
    + intros [= <- <- <-]. fields. unfold same_config. fields.
      split_and!; finish.
  - destruct (Z.ltb_spec (lastTimestamp g) now).
    + intros [= <- <- <-]. fields. unfold same_config. fields.
      split_and!; finish.
    + destruct (Z.ltb_spec (maxSequence g) (Num.add (sequenceCounter g) 1)).
      * destruct (poll (lastTimestamp g) c) as [[next rest']|] eqn:Hp;
          [|discriminate].
        apply poll_Some in Hp as [Hlt _].
        intros [= <- <- <-]. fields. unfold same_config. fields.
        split_and!; finish.
      * intros [= <- <- <-]. fields. unfold same_config. fields.
        split_and!; finish.
Qed.

Lemma same_config_trans g1 g2 g3 :
  same_config g1 g2 → same_config g2 g3 → same_config g1 g3.
Proof. intros [? ?] [? ?]. split; congruence. Qed.

Lemma calls_counted n g c vs g' c' :
  calls n g c = Some (vs, g', c') →
  0 ≤ generatedCount g → generatedCount g + Z.of_nat n < 2 ^ 53 →
  generatedCount g' = generatedCount g + Z.of_nat n
  ∧ length vs = n
  ∧ same_config g g'
  ∧ lastTimestamp g ≤ lastTimestamp g'.
Proof.
  revert g c vs g' c'. induction n as [|n IH]; intros g c vs g' c' H Hlo Hhi.
  - injection H as <- <- <-. unfold same_config.
    split_and!; try reflexivity; lia.
  - cbn [calls] in H.
    destruct (generateRaw g c) as [v g1 c1| |] eqn:Hstep; try discriminate.
    destruct (calls n g1 c1) as [[[vs1 g2] c2]|] eqn:Hrun; [|discriminate].
    injection H as <- <- <-.
    destruct (returned_state _ _ _ _ _ Hstep) as (_ & Hcfg & Hlast & Hcount & _).
    rewrite add_exact in Hcount by lia.
    destruct (IH _ _ _ _ _ Hrun) as (Hc2 & Hlen & Hcfg2 & Hlast2); [lia..|].
    split_and!.
    + lia.
    + cbn [length]. now rewrite Hlen.
    + eapply same_config_trans; eassumption.
    + lia.
Qed.

Lemma poll_None last c :
  Forall (λ t, t ≤ last) c → poll last c = None.
Proof.
  induction 1 as [|t c Ht _ IH]; [reflexivity|].
  cbn [poll]. destruct (Z.leb_spec t last); [exact IH | lia].
Qed.

End GeneratorMore.

(** * Facts about the functions around the generator and the codec *)

Module ApiFacts.
Import Codec CodecFacts Num NumFacts Generator GeneratorFacts GeneratorMore Api.

(** *** The codec, once more *)

Lemma encode_Return_range v t :
  encodeBase64URL48 v = Return t → 0 ≤ v ≤ MAX_48_BIT.
Proof.
  intros H.
  destruct (Z_lt_le_dec v 0) as [Hneg|Hpos];
    [rewrite encode_out_of_range in H by lia; discriminate|].
  destruct (Z_lt_le_dec MAX_48_BIT v) as [Hbig|Hok]; [|lia].
  rewrite encode_out_of_range in H by lia. discriminate.
Qed.

Lemma decode_encode v t :
  encodeBase64URL48 v = Return t → decodeTimestamp48 (JStr t) = Return v.
Proof.
  intros H. pose proof (encode_Return_range v t H) as Hr.
  destruct (encode_in_range v Hr) as (t' & Henc & Hds).
  rewrite H in Henc. injection Henc as <-.
  rewrite decode_string
    by (rewrite (Forall2_length _ _ _ Hds); apply digits_length).
  rewrite (decode_loop_digits _ _ _ Hds). f_equal.
  apply value_of_digits. rewrite MAX_48_BIT_pow in Hr.
  change (Z.of_nat 8) with 8. lia.
Qed.

Lemma decode_Return_digits a v :
  decodeTimestamp48 a = Return v →
  ∃ s ds, a = JStr s ∧ length ds = 8%nat
          ∧ Forall2 decodes s ds ∧ v = value_of 0 ds.
Proof.
  unfold decodeTimestamp48.
  destruct a as [| | | | |s| | |]; try discriminate.
  destruct (length s =? 8)%nat eqn:E; [|discriminate]. cbn [negb].
  apply Nat.eqb_eq in E. intros H.
  apply decode_loop_Return in H as (ds & Hds & ->).
  exists s, ds. split_and!; try reflexivity; [|assumption].
  now rewrite <- (Forall2_length _ _ _ Hds).
Qed.

Lemma valid_of_decode t v :
  decodeTimestamp48 t = Return v → isValidTimestamp t = Return true.
Proof.
  intros H. unfold isValidTimestamp. rewrite H. cbn [bind try_catch].
  apply decode_range in H as [Hlo Hhi]. f_equal.
  apply andb_true_iff. split; now apply Z.leb_le.
Qed.

(** *** Hexadecimal text *)

Lemma hex_char_check :
  forallb (λ i, bool_decide
                  (list_find (λ x, x = hex_char (Z.of_nat i)) HEX_DIGITS
                   = Some (i, hex_char (Z.of_nat i))))
          (seq 0 16) = true.
Proof. vm_compute. reflexivity. Qed.

Lemma hex_char_found d :
  0 ≤ d < 16 →
  list_find (λ x, x = hex_char d) HEX_DIGITS = Some (Z.to_nat d, hex_char d).
Proof.
  intros Hd. pose proof hex_char_check as Hall.
  rewrite forallb_forall in Hall.
  specialize (Hall (Z.to_nat d)).
  rewrite Z2Nat.id in Hall by lia.
  eapply bool_decide_eq_true_1, Hall, in_seq. lia.
Qed.

Lemma hex_char_digit d : 0 ≤ d < 16 → hex_char d ∈ HEX_DIGITS.
Proof.
  intros Hd. pose proof (hex_char_found d Hd) as H.
  apply list_find_Some in H as (Hl & _). eapply list_elem_of_lookup_2, Hl.
Qed.

Lemma hex_value_cons acc d s :
  0 ≤ d < 16 → hex_value acc (hex_char d :: s) = hex_value (acc * 16 + d) s.
Proof.
  intros Hd. cbn [hex_value]. rewrite (hex_char_found d Hd).
  now rewrite Z2Nat.id by lia.
Qed.

Lemma hex_value_app acc l1 l2 :
  hex_value acc (l1 ++ l2) = hex_value acc l1 ≫= λ x, hex_value x l2.
Proof.
  revert acc. induction l1 as [|c l1 IH]; intros acc; [reflexivity|].
  cbn [app hex_value].
  destruct (list_find (λ x, x = c) HEX_DIGITS) as [[i y]|]; [apply IH|reflexivity].
Qed.

Lemma hex_value_zeros n : hex_value 0 (replicate n 48%nat) = Some 0.
Proof.
  induction n as [|n IH]; [reflexivity|].
  change (replicate (S n) 48%nat) with (hex_char 0 :: replicate n 48%nat).
  rewrite hex_value_cons by lia. exact IH.
Qed.

Lemma toString16_loop_spec fuel v acc :
  0 ≤ v < 16 ^ Z.of_nat (S fuel) →
  ∃ l, toString16_loop (S fuel) v acc = l ++ acc
       ∧ (∀ k, v < 16 ^ Z.of_nat k → (1 ≤ k)%nat → (length l ≤ k)%nat)
       ∧ (∀ r, hex_value r l = Some (r * 16 ^ Z.of_nat (length l) + v))
       ∧ Forall (λ c, c ∈ HEX_DIGITS) l.
Proof.
  revert v acc. induction fuel as [|fuel IH]; intros v acc Hv.
  - change (16 ^ Z.of_nat 1) with 16 in Hv.
    exists [hex_char (v mod 16)]. cbn [toString16_loop].
    rewrite Z.div_small, Z.mod_small by lia. cbn [Z.eqb].
    split_and!; [reflexivity | cbn; intros; lia | |].
    + intros r. rewrite hex_value_cons by lia. cbn. f_equal; lia.
    + apply Forall_singleton, hex_char_digit; lia.
  - rewrite Nat2Z.inj_succ, Z.pow_succ_r in Hv by lia.
    pose proof (Z.mod_pos_bound v 16 ltac:(lia)) as Hm.
    pose proof (Z.div_mod v 16 ltac:(lia)) as Hdm.
    change (toString16_loop (S (S fuel)) v acc)
      with (if v / 16 =? 0 then hex_char (v mod 16) :: acc
            else toString16_loop (S fuel) (v / 16) (hex_char (v mod 16) :: acc)).
    destruct (Z.eqb_spec (v / 16) 0) as [Hz|Hnz].
    + exists [hex_char (v mod 16)].
      split_and!; [reflexivity | cbn; intros; lia | |].
      * intros r. rewrite hex_value_cons by lia. cbn. f_equal; lia.
      * apply Forall_singleton, hex_char_digit; lia.
    + assert (Hq : 0 ≤ v / 16 < 16 ^ Z.of_nat (S fuel)).
      { split; [apply Z.div_pos; lia|].
        apply Z.div_lt_upper_bound; lia. }
      destruct (IH (v / 16) (hex_char (v mod 16) :: acc) Hq)
        as (l & Hloop & Hlen & Hval & Hall).
      exists (l ++ [hex_char (v mod 16)]).
      split_and!.
      * rewrite Hloop, <- app_assoc. reflexivity.
      * intros k Hk Hk1. rewrite length_app. cbn [length].
        destruct k as [|[|k]]; [lia| |].
        { change (16 ^ Z.of_nat 1) with 16 in Hk.
          rewrite Z.div_small in Hnz by lia. lia. }
        assert (length l ≤ S k)%nat; [|lia].
        apply Hlen; [|lia].
        rewrite Nat2Z.inj_succ, Z.pow_succ_r in Hk by lia.
        apply Z.div_lt_upper_bound; lia.
      * intros r. rewrite hex_value_app, Hval. cbn [mbind option_bind].
        rewrite hex_value_cons by lia. cbn [hex_value]. f_equal.
        rewrite length_app. cbn [length].
        rewrite Nat.add_1_r, Nat2Z.inj_succ, Z.pow_succ_r by lia. nia.
      * apply Forall_app. split; [assumption|].
        apply Forall_singleton, hex_char_digit; lia.
Qed.

Lemma toString16_spec v :
  0 ≤ v →
  ∃ l, toString16 v = l
       ∧ (∀ k, v < 16 ^ Z.of_nat k → (1 ≤ k)%nat → (length l ≤ k)%nat)
       ∧ (∀ r, hex_value r l = Some (r * 16 ^ Z.of_nat (length l) + v))
       ∧ Forall (λ c, c ∈ HEX_DIGITS) l.
Proof.
  intros Hv. unfold toString16.
  destruct (toString16_loop_spec (Z.to_nat (Z.log2 v)) v []) as (l & Hl & H).
  - split; [assumption|].
    rewrite Nat2Z.inj_succ, Z2Nat.id by apply Z.log2_nonneg.
    destruct (Z.eq_dec v 0) as [->|Hne]; [reflexivity|].
    pose proof (Z.log2_spec v ltac:(lia)) as [_ Hs].
    eapply Z.lt_le_trans; [exact Hs|].
    apply Z.pow_le_mono_l. lia.
  - exists l. rewrite app_nil_r in Hl. now split.
Qed.

Lemma hex_text v :
  0 ≤ v ≤ MAX_48_BIT →
  length (padStart 12 (toString16 v)) = 12%nat
  ∧ Forall (λ c, c ∈ HEX_DIGITS) (padStart 12 (toString16 v))
  ∧ hex_value 0 (padStart 12 (toString16 v)) = Some v.
Proof.
  intros Hv.
  destruct (toString16_spec v ltac:(lia)) as (l & -> & Hlen & Hval & Hall).
  assert (Hl : (length l ≤ 12)%nat).
  { apply Hlen; [|lia]. change (16 ^ Z.of_nat 12) with (MAX_48_BIT + 1). lia. }
  unfold padStart. split_and!.
  - rewrite length_app, length_replicate. lia.
  - apply Forall_app. split; [|assumption].
    apply Forall_replicate. vm_compute. apply list_elem_of_here.
  - rewrite hex_value_app, hex_value_zeros. cbn [mbind option_bind].
    rewrite Hval. f_equal; lia.
Qed.

(** *** generateTimestamp48 on an options object *)

Lemma generateTimestamp48_object d o c :
  generateTimestamp48 d (Object o) c =
  match select d (generator o) with
  | None => Failed (InvalidConfigError "generator") None c
  | Some g =>
      match generateRaw g c with
      | Threw e g rest => Failed e (Some g) rest
      | Polling g => Blocked g
      | Returned rawValue g rest =>
          let fmt :=
            if truthy (format o) then format o else JStr (lit "base64url") in
          if negb (Config.includes FORMATS fmt)
          then Failed (invalid_format fmt) (Some g) rest
          else if is_string (lit "base64url") fmt then
            match encodeBase64URL48 rawValue with
            | Return t => Done (Text t) g rest
            | Throw e => Failed e (Some g) rest
            end
          else if is_string (lit "hex") fmt then
            Done (Text (padStart 12 (toString16 rawValue))) g rest
          else Done (Numeric rawValue) g rest
      end
  end.
Proof. reflexivity. Qed.

(** The value a returning call gives while the readings stay in range. *)
Lemma returned_in_range g c v g' rest :
  wf g → Forall (λ t, t ≤ maxTimestamp g) c →
  generateRaw g c = Returned v g' rest →
  wf g' ∧ same_config g g' ∧ v = id_of g' ∧ 0 ≤ v ≤ MAX_48_BIT
  ∧ v / 2 ^ sequenceBits g' = lastTimestamp g'.
Proof.
  intros Hwf Hc H.
  destruct (step_in_range _ _ _ _ _ Hwf Hc H) as (Hwf' & Hcfg & -> & _ & _).
  pose proof (id_of_bounds _ Hwf').
  split_and!; try assumption; try reflexivity; try lia.
  destruct Hwf' as [Hw Hm Hs Hl]. pose proof (pow2_width _ Hw).
  unfold id_of. rewrite Z.div_add_l by lia.
  rewrite Z.div_small by lia. lia.
Qed.

End ApiFacts.

(** * The codec: round trip, rejection, validation *)

Import Codec CodecFacts.

(** C3. The codec is a bijection on its valid domains: for every integer
    [v] in [[0, 2^48 - 1]], [encodeBase64URL48 v] returns a text [t] of 8
    alphabet symbols with [decodeTimestamp48 t = v]; and for every
    8-character string [t] over the 64-symbol alphabet,
    [decodeTimestamp48 t] returns a value [v] in range with
    [encodeBase64URL48 v = t]. *)
Theorem codec_round_trip :
  (∀ v : Z, 0 ≤ v ≤ 2 ^ 48 - 1 →
     ∃ t : jsstring,
       encodeBase64URL48 v = Return t
       ∧ length t = 8%nat ∧ Forall (λ c, c ∈ BASE64URL_CHARS) t
       ∧ decodeTimestamp48 (JStr t) = Return v)
  ∧ (∀ t : jsstring,
       length t = 8%nat → Forall (λ c, c ∈ BASE64URL_CHARS) t →
       ∃ v : Z,
         decodeTimestamp48 (JStr t) = Return v
         ∧ 0 ≤ v ≤ 2 ^ 48 - 1
         ∧ encodeBase64URL48 v = Return t).
Proof.
  split.
  - intros v Hv.
    assert (Hr : 0 ≤ v ≤ MAX_48_BIT) by (rewrite MAX_48_BIT_pow; lia).
    destruct (encode_in_range v Hr) as (t & Henc & Hds).
    assert (Hlen : length t = 8%nat).
    { rewrite (Forall2_length _ _ _ Hds). apply digits_length. }
    exists t. repeat split; [assumption..| |].
    + eapply decodes_alphabet, Hds.
    + rewrite decode_string by assumption.
      rewrite (decode_loop_digits _ _ _ Hds).
      f_equal. apply value_of_digits. change (Z.of_nat 8) with 8. lia.
  - intros t Hlen Halpha.
    destruct (alphabet_decodes t Halpha) as [ds Hds].
    assert (Hlen' : length ds = 8%nat)
      by (now rewrite <- (Forall2_length _ _ _ Hds)).
    pose proof (decodes_digits _ _ Hds) as Hdig.
    pose proof (value_of_bounds ds 0 Hdig ltac:(lia)) as Hb.
    rewrite Hlen' in Hb. change (Z.of_nat 8) with 8 in Hb.
    exists (value_of 0 ds). repeat split; [| lia | lia |].
    + rewrite decode_string by assumption. now apply decode_loop_digits.
    + assert (Hr : 0 ≤ value_of 0 ds ≤ MAX_48_BIT)
        by (rewrite MAX_48_BIT_pow; lia).
      destruct (encode_in_range _ Hr) as (t' & Henc & Hds').
      rewrite <- Hlen', digits_value_of in Hds' by assumption.
      now rewrite Henc, (decodes_injective _ _ _ Hds' Hds).
Qed.

Lemma codec_round_trip_witness :
  (∃ t : jsstring,
     encodeBase64URL48 (2 ^ 47) = Return t
     ∧ length t = 8%nat ∧ Forall (λ c, c ∈ BASE64URL_CHARS) t
     ∧ decodeTimestamp48 (JStr t) = Return (2 ^ 47))
  ∧ (∃ v : Z,
       decodeTimestamp48 (JStr (lit "gt48-_AZ")) = Return v
       ∧ 0 ≤ v ≤ 2 ^ 48 - 1
       ∧ encodeBase64URL48 v = Return (lit "gt48-_AZ")).
Proof.
  split.
  - apply (proj1 codec_round_trip). lia.
  - apply (proj2 codec_round_trip).
    + reflexivity.
    + vm_compute. repeat constructor.
Defined.

(** C7. Codec rejection: [encodeBase64URL48 v] throws a range error for
    every [v < 0] and every [v > 2^48 - 1] and returns for every [v] in
    range; [decodeTimestamp48 t] throws an encoding error for every string
    whose length is not 8 and for every 8-character string holding a
    character outside the alphabet (['+'], ['/'] and ['='] are such
    characters), and returns for every other 8-character string. *)
Theorem codec_rejection :
  (∀ v : Z, v < 0 ∨ v > 2 ^ 48 - 1 →
     encodeBase64URL48 v = Throw TimestampRangeError)
  ∧ (∀ v : Z, 0 ≤ v ≤ 2 ^ 48 - 1 → returns (encodeBase64URL48 v))
  ∧ (∀ t : jsstring, length t ≠ 8%nat →
       ∃ m, decodeTimestamp48 (JStr t) = Throw (InvalidEncodingError m))
  ∧ (∀ (t : jsstring) (c : nat),
       length t = 8%nat → c ∈ t → c ∉ BASE64URL_CHARS →
       ∃ m, decodeTimestamp48 (JStr t) = Throw (InvalidEncodingError m))
  ∧ (∀ t : jsstring,
       length t = 8%nat → Forall (λ c, c ∈ BASE64URL_CHARS) t →
       returns (decodeTimestamp48 (JStr t)))
  ∧ Forall (λ c, c ∉ BASE64URL_CHARS) (lit "+/=").
Proof.
  repeat apply conj.
  - intros v Hv. apply encode_out_of_range. rewrite MAX_48_BIT_pow. lia.
  - intros v Hv.
    destruct (encode_in_range v) as (t & Henc & _);
      [rewrite MAX_48_BIT_pow; lia|].
    now exists t.
  - intros t Hlen. exists MustBe8Characters.
    unfold decodeTimestamp48.
    apply Nat.eqb_neq in Hlen. now rewrite Hlen.
  - intros t c Hlen Hin Hout.
    rewrite decode_string by assumption.
    destruct (decode_loop_outside t 0 c Hin Hout) as (c' & _ & _ & ->).
    eauto.
  - intros t Hlen Halpha.
    destruct (alphabet_decodes t Halpha) as [ds Hds].
    rewrite decode_string by assumption.
    exists (value_of 0 ds). now apply decode_loop_digits.
  - repeat constructor; apply digit_of_None; vm_compute; reflexivity.
Qed.

Lemma codec_rejection_witness :
  encodeBase64URL48 (-1) = Throw TimestampRangeError
  ∧ encodeBase64URL48 (2 ^ 48) = Throw TimestampRangeError
  ∧ returns (encodeBase64URL48 (2 ^ 48 - 1))
  ∧ (∃ m, decodeTimestamp48 (JStr (lit "toolong!!"))
          = Throw (InvalidEncodingError m))
  ∧ (∃ m, decodeTimestamp48 (JStr (lit "AAAA+AAA"))
          = Throw (InvalidEncodingError m))
  ∧ returns (decodeTimestamp48 (JStr (lit "________"))).
Proof.
  destruct codec_rejection as (Hout & Hin & Hlen & Hchar & Hok & Hsym).
  repeat apply conj.
  - apply Hout. lia.
  - apply Hout. lia.
  - apply Hin. lia.
  - apply Hlen. vm_compute. discriminate.
  - apply (Hchar _ 43%nat).
    + reflexivity.
    + vm_compute. do 4 apply list_elem_of_further. apply list_elem_of_here.
    + apply (proj1 (Forall_cons_1 _ _ _ Hsym)).
  - apply Hok.
    + reflexivity.
    + vm_compute. repeat constructor.
Defined.

(** C8. For every input [t], [isValidTimestamp t] never throws, and it
    returns [true] if and only if [decodeTimestamp48 t] returns. *)
Theorem isValidTimestamp_iff_decodes :
  ∀ t : jsval,
    ∃ b : bool,
      isValidTimestamp t = Return b
      ∧ (b = true ↔ returns (decodeTimestamp48 t)).
Proof.
  intros t. unfold isValidTimestamp.
  destruct (decodeTimestamp48 t) as [v|e] eqn:Hdec.
  - exists true. split.
    + apply decode_range in Hdec as [Hlo Hhi].
      cbn [bind try_catch]. f_equal.
      apply andb_true_iff. split; [now apply Z.leb_le | now apply Z.leb_le].
    + split; [intros _; now exists v | reflexivity].
  - exists false. split; [reflexivity|].
    split; [discriminate | intros [v Hv]; discriminate].
Qed.

(** C10. For every input that is not a string, [decodeTimestamp48] throws
    the very encoding error it throws for a string of the wrong length,
    without coercing the argument; consequently [isValidTimestamp]
    returns [false] for every such input. *)
Theorem decode_rejects_non_strings :
  ∀ (v : jsval) (s : jsstring),
    typeof v ≠ TString → length s ≠ 8%nat →
    decodeTimestamp48 v = Throw (InvalidEncodingError MustBe8Characters)
    ∧ decodeTimestamp48 v = decodeTimestamp48 (JStr s)
    ∧ isValidTimestamp v = Return false.
Proof.
  intros v s Hty Hlen.
  assert (Hv : decodeTimestamp48 v
               = Throw (InvalidEncodingError MustBe8Characters)).
  { destruct v; try reflexivity. now contradiction Hty. }
  repeat split.
  - exact Hv.
  - rewrite Hv. unfold decodeTimestamp48.
    apply Nat.eqb_neq in Hlen. now rewrite Hlen.
  - unfold isValidTimestamp. now rewrite Hv.
Qed.

Lemma decode_rejects_non_strings_witness :
  decodeTimestamp48 (of_int 12345678)
  = Throw (InvalidEncodingError MustBe8Characters)
  ∧ decodeTimestamp48 (of_int 12345678) = decodeTimestamp48 (JStr (lit "short"))
  ∧ isValidTimestamp (of_int 12345678) = Return false.
Proof.
  apply decode_rejects_non_strings.
  - discriminate.
  - vm_compute. discriminate.
Defined.


(** * Construction: validation of the sequence width *)

Import Config ConfigFacts.

(** C9, at a failing input.  For the configuration
    [{ sequenceBits: undefined }] the guard of [_validateConfig] skips the
    test, as it does for an omitted key, but the spread of the constructor
    copies [undefined] over the default: construction does not throw and
    returns an instance whose [sequenceBits] is [undefined] and whose
    [maxSequence] is [NaN], no state of a generator with an integer width;
    with the key omitted the instance stores the default 8.  (For a
    Symbol the exception is the [TypeError] of building the message, not
    a configuration error.) *)
Lemma undefined_sequenceBits_not_rejected :
  ¬ valid_sequenceBits JUndefined
  ∧ ¬ throws (construct {[ "sequenceBits" := JUndefined ]})
  ∧ (∃ inst, construct {[ "sequenceBits" := JUndefined ]} = Return inst
             ∧ config inst !! "sequenceBits" = Some JUndefined
             ∧ maxSequence inst = NaN
             ∧ Generator.of_instance inst = None)
  ∧ (∃ inst, construct ∅ = Return inst
             ∧ config inst !! "sequenceBits" = Some (of_int 8)
             ∧ maxSequence inst = Fin (inject_Z 255))
  ∧ construct {[ "sequenceBits" := JSymbol 0 ]} = Throw TypeError.
Proof.
  split_and!.
  - intros (q & n & H & _). discriminate.
  - intros [e H]. vm_compute in H. discriminate.
  - eexists. split_and!; reflexivity.
  - eexists. split_and!; reflexivity.
  - reflexivity.
Qed.

(** What the validation of [sequenceBits] does enforce.  Construction
    with a [sequenceBits] value other than [undefined] that is not an
    integer in [[1, 16]] throws and produces no instance; the exception is
    a configuration error when the values of the configuration can be
    converted to a string for the message, and it names [sequenceBits]
    when the other fields are valid.  Every integer [sequenceBits] in
    [[1, 16]] is accepted when the other fields are valid, and stored
    unchanged. *)
Theorem sequenceBits_validated_at_construction :
  ∀ (cfg : gmap string jsval) (v : jsval),
    cfg !! "sequenceBits" = Some v →
    (v ≠ JUndefined → ¬ valid_sequenceBits v →
       throws (construct cfg)
       ∧ ((∀ field, convertible (get cfg field) = true) →
            ∃ field, construct cfg = Throw (InvalidConfigError field))
       ∧ (others_valid cfg → convertible v = true →
            construct cfg = Throw (InvalidConfigError "sequenceBits")))
    ∧ (valid_sequenceBits v → others_valid cfg →
         ∃ inst, construct cfg = Return inst
                 ∧ config inst !! "sequenceBits" = Some v).
Proof.
  intros cfg v Hv. split.
  - intros Hdef Hinvalid.
    pose proof (check_sequenceBits_invalid cfg v Hv Hdef Hinvalid) as Hs.
    assert (Hthrows : throws (validateConfig cfg)).
    { apply validateConfig_throws. rewrite Hs. apply throw_invalid_throws. }
    split_and!.
    + now apply construct_throws_iff.
    + intros Hconv.
      destruct (validateConfig_config_error cfg Hconv Hthrows) as [field Hf].
      exists field. now apply construct_throws.
    + intros Ho Hc. apply construct_throws.
      rewrite validateConfig_others, Hs by assumption.
      now apply throw_invalid_convertible.
  - intros Hvalid Ho. unfold construct.
    rewrite (validateConfig_others cfg Ho).
    rewrite (check_sequenceBits_valid cfg v Hv Hvalid). cbn [bind].
    eexists. split; [reflexivity|]. cbn [config].
    now apply merged_lookup.
Qed.

Lemma sequenceBits_validated_at_construction_witness :
  (throws (construct {[ "sequenceBits" := of_int 17 ]})
   ∧ construct {[ "sequenceBits" := of_int 17 ]}
     = Throw (InvalidConfigError "sequenceBits"))
  ∧ ∃ inst, construct {[ "sequenceBits" := of_int 12 ]} = Return inst
            ∧ config inst !! "sequenceBits" = Some (of_int 12).
Proof.
  assert (Ho : ∀ v, others_valid {[ "sequenceBits" := v ]})
    by (intros v; repeat split).
  split.
  - destruct (sequenceBits_validated_at_construction
                {[ "sequenceBits" := of_int 17 ]} (of_int 17)) as [H _];
      [reflexivity|].
    destruct H as (H1 & _ & H2).
    + discriminate.
    + intros (q & n & Hq & Hn & Hr). injection Hq as <-.
      unfold Qeq in Hn. cbn in Hn. lia.
    + split; [exact H1 | apply H2; [apply Ho | reflexivity]].
  - destruct (sequenceBits_validated_at_construction
                {[ "sequenceBits" := of_int 12 ]} (of_int 12)) as [_ H];
      [reflexivity|].
    apply H; [|apply Ho].
    exists (inject_Z 12), 12.
    split; [reflexivity | split; [reflexivity | lia]].
Defined.

(** * The generator: ordering, range, overflow, backward clock, ceiling *)

Import Generator GeneratorFacts.

(** C1, at a failing input.  The reading the overflow recovery polls is
    not compared with [maxTimestamp]; with the width 1 and the readings
    [0, 0, 2^52, 6] the second call returns [2^53] from the polled reading
    [2^52], and the third, a backward reading, returns
    [2^52 * 2 + 1], which as a Number is [2^53] again: two equal
    identifiers in a row. *)
Theorem unchecked_poll_breaks_ordering :
  Forall (λ t, 0 ≤ t ∧ Num.representable t) [0; 0; 2 ^ 52; 6]
  ∧ ∃ g, calls 3 (create 1) [0; 0; 2 ^ 52; 6]
         = Some ([1; 2 ^ 53; 2 ^ 53], g, [])
  ∧ ¬ strictly_increasing [1; 2 ^ 53; 2 ^ 53].
Proof.
  split; [|eexists; split].
  - repeat constructor; try discriminate; reflexivity.
  - vm_compute. reflexivity.
  - intros H. specialize (H 1%nat 2%nat _ _ ltac:(lia) eq_refl eq_refl). lia.
Qed.

(** C2, at a failing input.  With the width 1, [maxTimestamp] is
    [2^47 - 1]; on the readings [0, 0, 2^47] the second call exhausts the
    sequence, polls [2^47] and returns [2^48], one past the 48-bit range.
    With the default width 8 the same happens at the 256th call on 256
    readings 0 followed by [2^40]. *)
Theorem unchecked_poll_leaves_range :
  maxTimestamp (create 1) = 2 ^ 47 - 1
  ∧ (∃ g, calls 2 (create 1) [0; 0; 2 ^ 47] = Some ([1; 2 ^ 48], g, []))
  ∧ (∃ vs g, calls 256 (create 8) (replicate 256 0 ++ [2 ^ 40])
             = Some (vs ++ [2 ^ 48], g, []))
  ∧ ¬ (0 ≤ 2 ^ 48 ≤ MAX_48_BIT).
Proof.
  split_and!.
  - reflexivity.
  - eexists. vm_compute. reflexivity.
  - exists (Z.of_nat <$> seq 1 255). eexists. vm_compute. reflexivity.
  - unfold MAX_48_BIT. lia.
Qed.




(** C5. Backward clock: on a fresh generator with the default 8-bit
    sequence width, the readings 100, 100, 99, 101 over four calls yield
    four strictly increasing identifiers; the third has the time component
    100 (the retained [lastTimestamp], not the reading 99) and the
    sequence 2, the fourth the time component 101 and the sequence 0. *)
Theorem backward_clock_scenario :
  (∃ inst, Config.construct ∅ = Return inst
           ∧ of_instance inst = Some (create 8))
  ∧ ∃ v1 v2 v3 v4 g,
      calls 4 (create 8) [100; 100; 99; 101] = Some ([v1; v2; v3; v4], g, [])
      ∧ strictly_increasing [v1; v2; v3; v4]
      ∧ time_component 8 v3 = 100 ∧ sequence_value 8 v3 = 2
      ∧ time_component 8 v4 = 101 ∧ sequence_value 8 v4 = 0.
Proof.
  split; [exact construct_default|].
  exists 25600, 25601, 25602, 25856. eexists. split_and!.
  - vm_compute. reflexivity.
  - apply sorted_strictly_increasing. repeat constructor; lia.
  - reflexivity.
  - reflexivity.
  - reflexivity.
  - reflexivity.
Qed.

(** C6. Fatal range: when the reading [t] exceeds
    [floor((2^48 - 1) / 2^sequenceBits)] or is negative, [generateRaw]
    throws [TimestampRangeError] and the generator is left exactly as it
    was: [lastTimestamp], [sequenceCounter], [generatedCount] and
    [overflowCount] are unchanged. *)
Theorem fatal_range_keeps_state g t rest :
  t > (2 ^ 48 - 1) / 2 ^ sequenceBits g ∨ t < 0 →
  ∃ g', generateRaw g (t :: rest) = Threw TimestampRangeError g' rest
        ∧ g' = g
        ∧ lastTimestamp g' = lastTimestamp g
        ∧ sequenceCounter g' = sequenceCounter g
        ∧ generatedCount g' = generatedCount g
        ∧ overflowCount g' = overflowCount g.
Proof.
  intros H. exists g. split_and!; try reflexivity.
  apply generateRaw_rejects. exact H.
Qed.

Lemma fatal_range_keeps_state_witness :
  (∃ g', generateRaw (create 8) (2 ^ 40 :: [5]) = Threw TimestampRangeError g' [5]
         ∧ g' = create 8
         ∧ lastTimestamp g' = lastTimestamp (create 8)
         ∧ sequenceCounter g' = sequenceCounter (create 8)
         ∧ generatedCount g' = generatedCount (create 8)
         ∧ overflowCount g' = overflowCount (create 8))
  ∧ (∃ g', generateRaw (create 8) (-1 :: [5]) = Threw TimestampRangeError g' [5]
         ∧ g' = create 8
         ∧ lastTimestamp g' = lastTimestamp (create 8)
         ∧ sequenceCounter g' = sequenceCounter (create 8)
         ∧ generatedCount g' = generatedCount (create 8)
         ∧ overflowCount g' = overflowCount (create 8)).
Proof.
  split.
  - apply fatal_range_keeps_state. left. vm_compute. reflexivity.
  - apply fatal_range_keeps_state. right. lia.
Defined.

(** * Further properties of the generator *)

Import GeneratorMore Api ApiFacts.

(** X1. While every reading, the polled ones included, is at most
    [maxTimestamp], the identifiers of a run of returning calls on a fresh
    generator are strictly increasing, pairwise distinct, and within
    [[0, 2^48 - 1]]. *)
Theorem run_within_range n w c vs g' c' :
  1 ≤ w ≤ 16 → Forall (λ t, t ≤ MAX_48_BIT / 2 ^ w) c →
  calls n (create w) c = Some (vs, g', c') →
  strictly_increasing vs ∧ NoDup vs ∧ Forall (λ v, 0 ≤ v ≤ MAX_48_BIT) vs.
Proof.
  intros Hw Hc H.
  destruct (calls_in_range n _ _ _ _ _ (wf_create w Hw) Hc H)
    as (Hwf & _ & Hvs & Hsorted).
  split_and!.
  - now apply sorted_strictly_increasing.
  - clear -Hsorted. induction Hsorted as [|a l _ IH Hall]; constructor.
    + intros Hin. rewrite Forall_forall in Hall.
      specialize (Hall a Hin). lia.
    + exact IH.
  - pose proof (id_of_bounds _ Hwf).
    pose proof (id_of_bounds _ (wf_create w Hw)).
    eapply Forall_impl; [exact Hvs|]. cbn. intros; lia.
Qed.

Lemma run_within_range_witness :
  strictly_increasing [1280; 1281; 1536]
  ∧ NoDup [1280; 1281; 1536]
  ∧ Forall (λ v, 0 ≤ v ≤ MAX_48_BIT) [1280; 1281; 1536].
Proof.
  eapply (run_within_range 3 8 [5; 4; 6]).
  - lia.
  - repeat constructor; apply Z.leb_le; reflexivity.
  - vm_compute. reflexivity.
Defined.

(** X2. After every returning call, whatever the state and the readings,
    the snapshot of [getStats] holds the two fields of the identifier just
    returned ([lastTimestamp * 2^sequenceBits + sequenceCounter] in Number
    arithmetic), the width and [maxSequence] are unchanged,
    [lastTimestamp] has not moved backwards, and [sequenceCounter] is at
    most [maxSequence]. *)
Theorem stats_hold_last_identifier g c v g' rest :
  0 ≤ maxSequence g →
  generateRaw g c = Returned v g' rest →
  v = Num.add (Num.mul (lastTimestamp (getStats g'))
                       (Num.pow2 (sequenceBits (getStats g'))))
              (sequenceCounter (getStats g'))
  ∧ sequenceBits (getStats g') = sequenceBits (getStats g)
  ∧ maxSequence (getStats g') = maxSequence (getStats g)
  ∧ lastTimestamp (getStats g) ≤ lastTimestamp (getStats g')
  ∧ sequenceCounter (getStats g') ≤ maxSequence (getStats g').
Proof.
  intros Hmax H.
  destruct (returned_state _ _ _ _ _ H) as (Hv & [Hb Hm] & Hl & _ & _ & Hs).
  unfold getStats. split_and!; try assumption.
  rewrite Hm. auto.
Qed.

Lemma stats_hold_last_identifier_witness :
  let g' := {| sequenceBits := 8; lastTimestamp := 100; sequenceCounter := 3;
               maxSequence := 255; generatedCount := 1; overflowCount := 0 |} in
  let g := {| sequenceBits := 8; lastTimestamp := 100; sequenceCounter := 2;
              maxSequence := 255; generatedCount := 0; overflowCount := 0 |} in
  25603 = Num.add (Num.mul (lastTimestamp (getStats g'))
                           (Num.pow2 (sequenceBits (getStats g'))))
                  (sequenceCounter (getStats g'))
  ∧ sequenceBits (getStats g') = sequenceBits (getStats g)
  ∧ maxSequence (getStats g') = maxSequence (getStats g)
  ∧ lastTimestamp (getStats g) ≤ lastTimestamp (getStats g')
  ∧ sequenceCounter (getStats g') ≤ maxSequence (getStats g').
Proof.
  intros g' g.
  apply (stats_hold_last_identifier g [99; 7] 25603 g' [7]).
  - cbn. lia.
  - vm_compute. reflexivity.
Defined.

(** X3. [generatedCount] counts the returning calls: after [n] calls that
    all return, it has grown by exactly [n] (as long as it stays below
    [2^53]), and [n] identifiers were returned. *)
Theorem generatedCount_counts n g c vs g' c' :
  calls n g c = Some (vs, g', c') →
  0 ≤ generatedCount g → generatedCount g + Z.of_nat n < 2 ^ 53 →
  generatedCount (getStats g') = generatedCount (getStats g) + Z.of_nat n
  ∧ length vs = n.
Proof.
  intros H Hlo Hhi.
  destruct (calls_counted _ _ _ _ _ _ H Hlo Hhi) as (Hc & Hlen & _).
  now split.
Qed.

Lemma generatedCount_counts_witness :
  let g' := {| sequenceBits := 8; lastTimestamp := 6; sequenceCounter := 0;
               maxSequence := 255; generatedCount := 3; overflowCount := 0 |} in
  generatedCount (getStats g')
  = generatedCount (getStats (create 8)) + Z.of_nat 3
  ∧ length [1280; 1281; 1536] = 3%nat.
Proof.
  intros g'.
  apply (generatedCount_counts 3 (create 8) [5; 4; 6] _ g' []).
  - vm_compute. reflexivity.
  - vm_compute. discriminate.
  - vm_compute. reflexivity.
Defined.

(** X4. The overflow recovery has no bound: once the sequence of the tick
    is exhausted, a call does not return on any number of readings that
    stay at or behind [lastTimestamp]; it has counted the overflow and is
    still polling. *)
Theorem stalled_clock_blocks g now c :
  wf g → sequenceCounter g = maxSequence g →
  Forall (λ t, 0 ≤ t ≤ lastTimestamp g) (now :: c) →
  ∃ g', generateRaw g (now :: c) = Polling g'
        ∧ ∀ more, Forall (λ t, t ≤ lastTimestamp g) more →
            generateRaw g (now :: c ++ more) = Polling g'.
Proof.
  intros Hwf Hfull Hc.
  apply Forall_cons_1 in Hc as [Hnow Hc].
  assert (Hle : Forall (λ t, t ≤ lastTimestamp g) c)
    by (eapply Forall_impl; [exact Hc|]; cbn; intros; lia).
  pose proof (step_overflow g Hwf now c Hnow Hfull) as H.
  rewrite (poll_None _ _ Hle) in H. destruct H as [g' Hg'].
  exists g'. split; [exact Hg'|].
  intros more Hmore.
  assert (Hall : Forall (λ t, t ≤ lastTimestamp g) (c ++ more))
    by (apply Forall_app; now split).
  revert Hg'. unfold generateRaw. cbv zeta.
  cbn [sequenceBits lastTimestamp sequenceCounter maxSequence generatedCount
       overflowCount set_lastTimestamp set_sequenceCounter set_generatedCount
       set_overflowCount].
  rewrite (poll_None _ _ Hle), (poll_None _ _ Hall).
  repeat match goal with
         | |- context [if ?b then _ else _] => destruct b
         end; intros H; try discriminate H; exact H.
Qed.

Lemma stalled_clock_blocks_witness :
  let g := {| sequenceBits := 1; lastTimestamp := 9; sequenceCounter := 1;
              maxSequence := 1; generatedCount := 2; overflowCount := 0 |} in
  ∃ g', generateRaw g (9 :: [9; 8; 9]) = Polling g'
        ∧ ∀ more, Forall (λ t, t ≤ lastTimestamp g) more →
            generateRaw g (9 :: [9; 8; 9] ++ more) = Polling g'.
Proof.
  intros g. apply (stalled_clock_blocks g 9 [9; 8; 9]).
  - split; cbn; try lia. vm_compute. split; discriminate.
  - reflexivity.
  - repeat constructor; cbn; lia.
Defined.

(** * Further properties of the functions around the generator *)

Import Codec CodecFacts.

(** X5. While the readings stay in range, [generateRawValue] returns the
    generator's [lastTimestamp] after the call and [generateRawTimestamp]
    that value plus the epoch offset, whichever branch [generateRaw] took;
    the time returned is never earlier than the clock reading of the
    call. *)
Theorem raw_timestamp_is_last_timestamp d sel now c v g' rest :
  wf (chosen d sel) →
  Forall (λ t, t ≤ maxTimestamp (chosen d sel)) (now :: c) →
  generateRaw (chosen d sel) (now :: c) = Returned v g' rest →
  generateRawValue d sel (now :: c) = Done (lastTimestamp g') g' rest
  ∧ generateRawTimestamp d sel (now :: c)
    = Done (lastTimestamp g' + EPOCH_OFFSET) g' rest
  ∧ now ≤ lastTimestamp g'.
Proof.
  intros Hwf Hc H.
  destruct (returned_in_range _ _ _ _ _ Hwf Hc H)
    as (Hwf' & Hcfg & Hid & Hr & Hdiv).
  unfold generateRawValue, generateRawTimestamp. rewrite H.
  unfold Num.pow2. rewrite Hdiv.
  split_and!.
  - reflexivity.
  - rewrite NumFacts.add_exact; [reflexivity|].
    destruct Hwf' as [Hw Hm Hs Hl]. unfold maxTimestamp, Num.pow2 in Hl.
    rewrite maxTimestamp_width in Hl by assumption.
    assert (2 ^ (48 - sequenceBits g') ≤ 2 ^ 47)
      by (apply Z.pow_le_mono_r; lia).
    unfold EPOCH_OFFSET. lia.
  - destruct (returned_state _ _ _ _ _ H) as (_ & _ & Hl & _).
    destruct (Z_lt_le_dec (lastTimestamp (chosen d sel)) now) as [Hfwd|Hback];
      [|lia].
    apply Forall_cons_1 in Hc as [Hnow _].
    destruct (step_forward _ Hwf now c ltac:(lia)) as (g1 & Hg1 & _ & Hl1 & _).
    rewrite Hg1 in H. injection H as <- <- <-. lia.
Qed.

Lemma raw_timestamp_is_last_timestamp_witness :
  let g := {| sequenceBits := 8; lastTimestamp := 100; sequenceCounter := 2;
              maxSequence := 255; generatedCount := 3; overflowCount := 0 |} in
  let g' := {| sequenceBits := 8; lastTimestamp := 100; sequenceCounter := 3;
               maxSequence := 255; generatedCount := 4; overflowCount := 0 |} in
  generateRawValue (create 8) (Some g) (99 :: []) = Done (lastTimestamp g') g' []
  ∧ generateRawTimestamp (create 8) (Some g) (99 :: [])
    = Done (lastTimestamp g' + EPOCH_OFFSET) g' []
  ∧ 99 ≤ lastTimestamp g'.
Proof.
  intros g g'.
  apply (raw_timestamp_is_last_timestamp (create 8) (Some g) 99 [] 25603 g' []).
  - split; cbn; try lia. vm_compute. split; discriminate.
  - repeat constructor. apply Z.leb_le. reflexivity.
  - vm_compute. reflexivity.
Defined.

(** X6. When the clock is ahead of the generator's last timestamp (and
    within range), [generateRawValue] returns the reading itself and
    [generateRawTimestamp] the reading plus the epoch offset: the
    wall-clock time of [Date.now()]. *)
Theorem raw_timestamp_is_clock_reading d sel now c :
  wf (chosen d sel) →
  lastTimestamp (chosen d sel) < now ≤ maxTimestamp (chosen d sel) →
  ∃ g', generateRawValue d sel (now :: c) = Done now g' c
        ∧ generateRawTimestamp d sel (now :: c)
          = Done (now + EPOCH_OFFSET) g' c
        ∧ lastTimestamp g' = now ∧ sequenceCounter g' = 0.
Proof.
  intros Hwf Hnow.
  destruct (step_forward _ Hwf now c Hnow) as (g1 & Hg1 & [Hb _] & Hl1 & Hs1 & _).
  pose proof Hwf as [Hw Hm Hs Hl]. pose proof (pow2_width _ Hw).
  exists g1. unfold generateRawValue, generateRawTimestamp. rewrite Hg1.
  unfold Num.pow2. rewrite Hb, Z.div_mul by lia.
  split_and!; try reflexivity; try assumption.
  rewrite NumFacts.add_exact; [reflexivity|].
  unfold maxTimestamp, Num.pow2 in Hnow.
  rewrite maxTimestamp_width in Hnow by assumption.
  assert (2 ^ (48 - sequenceBits (chosen d sel)) ≤ 2 ^ 47)
    by (apply Z.pow_le_mono_r; lia).
  unfold EPOCH_OFFSET. lia.
Qed.

Lemma raw_timestamp_is_clock_reading_witness :
  ∃ g', generateRawValue (create 8) None (100 :: [7]) = Done 100 g' [7]
        ∧ generateRawTimestamp (create 8) None (100 :: [7])
          = Done (100 + EPOCH_OFFSET) g' [7]
        ∧ lastTimestamp g' = 100 ∧ sequenceCounter g' = 0.
Proof.
  apply (raw_timestamp_is_clock_reading (create 8) None 100 [7]).
  - apply wf_create. lia.
  - split; [reflexivity|]. apply Z.leb_le. reflexivity.
Defined.

(** X7. For an identifier of a generator of the default width 8,
    [timestampToDate] of its encoding builds the date of its time
    component: [new Date(T + EPOCH_OFFSET)] for the time component [T],
    whatever the sequence value. *)
Theorem timestampToDate_of_default_width T s t :
  0 ≤ T ≤ MAX_48_BIT / 2 ^ 8 → 0 ≤ s < 2 ^ 8 →
  encodeBase64URL48 (T * 2 ^ 8 + s) = Return t →
  timestampToDate (JStr t) = Return (NewDate (of_int (T + EPOCH_OFFSET))).
Proof.
  intros HT Hs Henc.
  unfold timestampToDate. rewrite (decode_encode _ _ Henc). cbn [bind].
  unfold DEFAULT_sequenceBits, Num.pow2.
  rewrite Z.div_add_l, (Z.div_small s) by lia.
  rewrite NumFacts.add_exact; [do 3 f_equal; lia|].
  change (MAX_48_BIT / 2 ^ 8) with (2 ^ 40 - 1) in HT.
  unfold EPOCH_OFFSET. lia.
Qed.

Lemma timestampToDate_of_default_width_witness :
  timestampToDate (JStr (lit "AAAAAGQD"))
  = Return (NewDate (of_int (100 + EPOCH_OFFSET))).
Proof.
  apply (timestampToDate_of_default_width 100 3).
  - split; [lia|]. apply Z.leb_le. reflexivity.
  - split; [lia|]. reflexivity.
  - vm_compute. reflexivity.
Defined.

(** X8. [timestampToDate] always splits with the default width 8: for
    the encoding of an identifier of a generator with a wider sequence
    field ([8 < w <= 16]) and a time component [T > 0] it builds a date
    later than [T + EPOCH_OFFSET], namely that of
    [floor((T * 2^w + s) / 2^8)]. *)
Theorem timestampToDate_of_wider_generator w T s t :
  8 < w ≤ 16 → 0 < T ≤ MAX_48_BIT / 2 ^ w → 0 ≤ s < 2 ^ w →
  encodeBase64URL48 (T * 2 ^ w + s) = Return t →
  ∃ D, timestampToDate (JStr t) = Return (NewDate (of_int (D + EPOCH_OFFSET)))
       ∧ D = (T * 2 ^ w + s) / 2 ^ 8
       ∧ T < D.
Proof.
  intros Hw HT Hs Henc.
  pose proof (pow2_width w ltac:(lia)) as Hp.
  pose proof (packed_in_range w T s ltac:(lia) ltac:(lia) ltac:(lia)) as Hr.
  exists ((T * 2 ^ w + s) / 2 ^ 8). split_and!; [|reflexivity|].
  - unfold timestampToDate. rewrite (decode_encode _ _ Henc). cbn [bind].
    unfold DEFAULT_sequenceBits, Num.pow2.
    rewrite NumFacts.add_exact; [reflexivity|].
    assert (0 ≤ (T * 2 ^ w + s) / 2 ^ 8 ≤ MAX_48_BIT).
    { split; [apply Z.div_pos; lia|].
      apply Z.div_le_upper_bound; lia. }
    unfold EPOCH_OFFSET, MAX_48_BIT in *. lia.
  - assert (H2 : 2 ^ w = 2 ^ (w - 8) * 2 ^ 8).
    { rewrite <- Z.pow_add_r by lia. f_equal. lia. }
    assert (Hge : 2 ≤ 2 ^ (w - 8)).
    { change 2 with (2 ^ 1) at 1. apply Z.pow_le_mono_r; lia. }
    assert (T * 2 ^ (w - 8) ≤ (T * 2 ^ w + s) / 2 ^ 8).
    { apply Z.div_le_lower_bound; [lia|]. rewrite H2. nia. }
    nia.
Qed.

Lemma timestampToDate_of_wider_generator_witness :
  ∃ D, timestampToDate (JStr (lit "AAAAAQAD"))
       = Return (NewDate (of_int (D + EPOCH_OFFSET)))
       ∧ D = (1 * 2 ^ 16 + 3) / 2 ^ 8
       ∧ 1 < D.
Proof.
  apply (timestampToDate_of_wider_generator 16 1 3).
  - lia.
  - split; [lia|]. apply Z.leb_le. reflexivity.
  - split; [lia|]. reflexivity.
  - vm_compute. reflexivity.
Defined.

(** X9. With the format omitted, falsy or ['base64url'], and the readings
    in range, [generateTimestamp48] returns whenever [generateRaw] does,
    with the same new state, and its text decodes to the identifier
    [generateRaw] returned and is accepted by [isValidTimestamp]. *)
Theorem generated_text_decodes d p fmt c g v g' rest :
  select d p = Some g → wf g → Forall (λ t, t ≤ maxTimestamp g) c →
  truthy fmt = false ∨ fmt = JStr (lit "base64url") →
  generateRaw g c = Returned v g' rest →
  ∃ t, generateTimestamp48 d (Object {| generator := p; format := fmt |}) c
       = Done (Text t) g' rest
       ∧ decodeTimestamp48 (JStr t) = Return v
       ∧ isValidTimestamp (JStr t) = Return true.
Proof.
  intros Hsel Hwf Hc Hfmt H.
  destruct (returned_in_range _ _ _ _ _ Hwf Hc H) as (_ & _ & _ & Hr & _).
  destruct (encode_in_range v Hr) as (t & Henc & _).
  exists t. rewrite generateTimestamp48_object. cbn [generator format].
  rewrite Hsel, H.
  assert (Heff : (if truthy fmt then fmt else JStr (lit "base64url"))
                 = JStr (lit "base64url")).
  { destruct Hfmt as [Hf| ->]; [now rewrite Hf | reflexivity]. }
  cbv zeta. rewrite Heff.
  change (Config.includes FORMATS (JStr (lit "base64url"))) with true.
  change (is_string (lit "base64url") (JStr (lit "base64url"))) with true.
  cbn [negb]. rewrite Henc.
  pose proof (decode_encode _ _ Henc) as Hdec.
  split_and!; [reflexivity | exact Hdec | exact (valid_of_decode _ _ Hdec)].
Qed.

Lemma generated_text_decodes_witness :
  let g' := {| sequenceBits := 8; lastTimestamp := 100; sequenceCounter := 0;
               maxSequence := 255; generatedCount := 1; overflowCount := 0 |} in
  ∃ t, generateTimestamp48 (create 8)
         (Object {| generator := NoGenerator; format := JUndefined |}) [100]
       = Done (Text t) g' []
       ∧ decodeTimestamp48 (JStr t) = Return 25600
       ∧ isValidTimestamp (JStr t) = Return true.
Proof.
  intros g'.
  apply (generated_text_decodes (create 8) NoGenerator JUndefined [100]
           (create 8) 25600 g' []).
  - reflexivity.
  - apply wf_create. lia.
  - repeat constructor. apply Z.leb_le. reflexivity.
  - left. reflexivity.
  - vm_compute. reflexivity.
Defined.

(** X10. [generateTimestamp48] checks the format only after it has called
    [generateRaw]: a call with a truthy format outside ['base64url'],
    ['hex'], ['number'] throws a configuration error, and the generator
    has advanced all the same: [generatedCount] is one more and the
    identifier [generateRaw] returned is lost. *)
Theorem invalid_format_consumes_identifier d p fmt c g v g' rest :
  select d p = Some g → 0 ≤ generatedCount g < 2 ^ 53 - 1 →
  truthy fmt = true → Config.includes FORMATS fmt = false →
  convertible fmt = true →
  generateRaw g c = Returned v g' rest →
  generateTimestamp48 d (Object {| generator := p; format := fmt |}) c
  = Failed (InvalidConfigError "format") (Some g') rest
  ∧ generatedCount g' = generatedCount g + 1
  ∧ g' ≠ g.
Proof.
  intros Hsel Hcount Htruthy Hout Hconv H.
  destruct (returned_state _ _ _ _ _ H) as (_ & _ & _ & Hc & _).
  rewrite NumFacts.add_exact in Hc by lia.
  split_and!.
  - rewrite generateTimestamp48_object. cbn [generator format].
    rewrite Hsel, H. cbv zeta. rewrite Htruthy, Hout. cbn [negb].
    unfold invalid_format. now rewrite Hconv.
  - exact Hc.
  - intros ->. lia.
Qed.

Lemma invalid_format_consumes_identifier_witness :
  let g' := {| sequenceBits := 8; lastTimestamp := 100; sequenceCounter := 0;
               maxSequence := 255; generatedCount := 1; overflowCount := 0 |} in
  generateTimestamp48 (create 8)
    (Object {| generator := Instance (create 8);
               format := JStr (lit "binary") |}) [100]
  = Failed (InvalidConfigError "format") (Some g') []
  ∧ generatedCount g' = generatedCount (create 8) + 1
  ∧ g' ≠ create 8.
Proof.
  intros g'.
  apply (invalid_format_consumes_identifier (create 8) (Instance (create 8))
           (JStr (lit "binary")) [100] (create 8) 25600 g' []).
  - reflexivity.
  - vm_compute. split; [discriminate | reflexivity].
  - reflexivity.
  - reflexivity.
  - reflexivity.
  - vm_compute. reflexivity.
Defined.

(** X11. The guards of [generateTimestamp48], [getTimestampStats] and
    [createGenerator] reject every argument that is neither an object,
    [null] nor [undefined] with a configuration error, before any
    generator is touched; [null], which the guards let through, makes all
    three throw a [TypeError] instead; and a truthy [options.generator]
    that is no [TimestampGenerator] is rejected with a configuration
    error. *)
Theorem argument_guards d c (p : plain) fmt :
  p ≠ PUndefined → p ≠ PNull →
  (generateTimestamp48 d (Plain p) c
   = Failed (InvalidConfigError "options") None c
   ∧ getTimestampStats d (Plain p) = Throw (InvalidConfigError "options")
   ∧ createGenerator (Plain p) = Throw (InvalidConfigError "config"))
  ∧ (generateTimestamp48 d (Plain PNull) c = Failed TypeError None c
     ∧ getTimestampStats d (Plain PNull) = Throw TypeError
     ∧ createGenerator (Plain PNull) = Throw TypeError)
  ∧ generateTimestamp48 d (Object {| generator := Foreign; format := fmt |}) c
    = Failed (InvalidConfigError "generator") None c
  ∧ getTimestampStats d (Object {| generator := Foreign; format := fmt |})
    = Throw (InvalidConfigError "generator").
Proof.
  intros Hu Hn. split_and!; try reflexivity;
    destruct p; try congruence; reflexivity.
Qed.

Lemma argument_guards_witness :
  (generateTimestamp48 (create 8) (Plain (PString (lit "hex"))) [100]
   = Failed (InvalidConfigError "options") None [100]
   ∧ getTimestampStats (create 8) (Plain (PString (lit "hex")))
     = Throw (InvalidConfigError "options")
   ∧ createGenerator (Plain (PString (lit "hex")))
     = Throw (InvalidConfigError "config"))
  ∧ (generateTimestamp48 (create 8) (Plain PNull) [100]
     = Failed TypeError None [100]
     ∧ getTimestampStats (create 8) (Plain PNull) = Throw TypeError
     ∧ createGenerator (Plain PNull) = Throw TypeError)
  ∧ generateTimestamp48 (create 8)
      (Object {| generator := Foreign; format := JUndefined |}) [100]
    = Failed (InvalidConfigError "generator") None [100]
  ∧ getTimestampStats (create 8)
      (Object {| generator := Foreign; format := JUndefined |})
    = Throw (InvalidConfigError "generator").
Proof.
  apply (argument_guards (create 8) [100] (PString (lit "hex")) JUndefined);
    discriminate.
Defined.

(** X12. With the format ['hex'] and the readings in range,
    [generateTimestamp48] returns exactly 12 characters, all lowercase
    hexadecimal digits, which denote the identifier [generateRaw]
    returned. *)
Theorem hex_text_denotes_identifier d p c g v g' rest :
  select d p = Some g → wf g → Forall (λ t, t ≤ maxTimestamp g) c →
  generateRaw g c = Returned v g' rest →
  ∃ h, generateTimestamp48 d
         (Object {| generator := p; format := JStr (lit "hex") |}) c
       = Done (Text h) g' rest
       ∧ length h = 12%nat
       ∧ Forall (λ ch, ch ∈ HEX_DIGITS) h
       ∧ hex_value 0 h = Some v.
Proof.
  intros Hsel Hwf Hc H.
  destruct (returned_in_range _ _ _ _ _ Hwf Hc H) as (_ & _ & _ & Hr & _).
  destruct (hex_text v Hr) as (Hlen & Hall & Hval).
  exists (padStart 12 (toString16 v)).
  split_and!; try assumption.
  rewrite generateTimestamp48_object. cbn [generator format].
  rewrite Hsel, H. reflexivity.
Qed.

Lemma hex_text_denotes_identifier_witness :
  let g' := {| sequenceBits := 8; lastTimestamp := 100; sequenceCounter := 0;
               maxSequence := 255; generatedCount := 1; overflowCount := 0 |} in
  ∃ h, generateTimestamp48 (create 8)
         (Object {| generator := NoGenerator; format := JStr (lit "hex") |})
         [100]
       = Done (Text h) g' []
       ∧ length h = 12%nat
       ∧ Forall (λ ch, ch ∈ HEX_DIGITS) h
       ∧ hex_value 0 h = Some 25600.
Proof.
  intros g'.
  apply (hex_text_denotes_identifier (create 8) NoGenerator [100]
           (create 8) 25600 g' []).
  - reflexivity.
  - apply wf_create. lia.
  - repeat constructor. apply Z.leb_le. reflexivity.
  - vm_compute. reflexivity.
Defined.

(** X13. The codec never maps two inputs to one output: distinct values
    of the 48-bit range have distinct encodings, and an argument that
    decodes shares its value with no other argument. *)
Theorem codec_injective :
  (∀ v1 v2,
     0 ≤ v1 ≤ MAX_48_BIT → 0 ≤ v2 ≤ MAX_48_BIT → v1 ≠ v2 →
     encodeBase64URL48 v1 ≠ encodeBase64URL48 v2)
  ∧ (∀ a b,
       returns (decodeTimestamp48 a) → a ≠ b →
       decodeTimestamp48 a ≠ decodeTimestamp48 b).
Proof.
  split.
  - intros v1 v2 H1 H2 Hne Heq.
    destruct (encode_in_range v1 H1) as (t & Ht & _).
    pose proof Ht as Ht2. rewrite Heq in Ht2.
    apply decode_encode in Ht, Ht2. congruence.
  - intros a b [v Ha] Hne Heq.
    pose proof Ha as Hb. rewrite Heq in Hb.
    apply decode_Return_digits in Ha as (s & ds & -> & Hlen & Hds & Hv).
    apply decode_Return_digits in Hb as (s' & ds' & -> & Hlen' & Hds' & Hv').
    assert (Hd : ds = ds').
    { rewrite <- (digits_value_of ds 0 (decodes_digits _ _ Hds)).
      rewrite <- (digits_value_of ds' 0 (decodes_digits _ _ Hds')).
      rewrite Hlen, Hlen'. congruence. }
    subst ds'. apply Hne. f_equal. eapply decodes_injective; eassumption.
Qed.

Lemma codec_injective_witness :
  encodeBase64URL48 25600 ≠ encodeBase64URL48 25601
  ∧ decodeTimestamp48 (JStr (lit "AAAAAGQA"))
    ≠ decodeTimestamp48 (JStr (lit "AAAAAGQB")).
Proof.
  split.
  - apply (proj1 codec_injective).
    + split; [lia|]. apply Z.leb_le. reflexivity.
    + split; [lia|]. apply Z.leb_le. reflexivity.
    + lia.
  - apply (proj2 codec_injective).
    + eexists. vm_compute. reflexivity.
    + intros [= H].
Defined.

(** X14. Every instance the constructor returns starts with all counters
    at zero, and either its [sequenceBits] is [undefined] (it was passed
    so) and its [maxSequence] is [NaN], or it is the generator state
    [create n] of an integer width [n] in [[1, 16]], which satisfies the
    generator's invariant. *)
Theorem constructed_instance cfg inst :
  Config.construct cfg = Return inst →
  Config.lastTimestamp inst = 0 ∧ Config.sequenceCounter inst = 0
  ∧ Config.generatedCount inst = 0 ∧ Config.overflowCount inst = 0
  ∧ ((cfg !! "sequenceBits" = Some JUndefined
      ∧ Config.maxSequence inst = NaN ∧ of_instance inst = None)
     ∨ (∃ n, 1 ≤ n ≤ 16 ∧ of_instance inst = Some (create n)
             ∧ wf (create n))).
Proof.
  unfold Config.construct.
  destruct (Config.validateConfig cfg) as [[]|e] eqn:Hval; [|discriminate].
  cbn [bind]. intros [= <-].
  cbn [Config.lastTimestamp Config.sequenceCounter Config.generatedCount
       Config.overflowCount Config.maxSequence].
  split_and!; try reflexivity.
  unfold of_instance.
  cbn [Config.config Config.lastTimestamp Config.sequenceCounter
       Config.generatedCount Config.overflowCount Config.maxSequence].
  destruct (ConfigFacts.merged_sequenceBits cfg Hval) as [Hu|Hv].
  - left. rewrite Hu. split_and!; try reflexivity.
    unfold Config.get in Hu.
    destruct (cfg !! "sequenceBits") as [v|] eqn:Hl.
    + rewrite (ConfigFacts.merged_lookup _ _ _ Hl) in Hu. cbn in Hu.
      now subst v.
    + rewrite (lookup_union_r cfg Config.DEFAULT_CONFIG _ Hl) in Hu.
      discriminate Hu.
  - right. destruct Hv as (q & n & Hq & Hn & Hr). rewrite Hq.
    exists n. split; [assumption|]. split; [|now apply wf_create].
    assert (Hint : Number_isInteger (JNum (Fin q)) = true)
      by (apply ConfigFacts.isInteger_integral; now exists n).
    rewrite Hint. cbn [Config.pow2_minus_1].
    assert (Hio : int_of q = n).
    { unfold int_of, Qeq in *. destruct q as [a b]. cbn [Qnum Qden inject_Z] in *.
      rewrite Z.mul_1_r in Hn. subst a. apply Z.div_mul. discriminate. }
    rewrite Hio. unfold int_of. cbn [inject_Z Qnum Qden]. rewrite Z.div_1_r.
    pose proof (pow2_width n Hr).
    unfold create, Num.sub, Num.pow2. now rewrite NumFacts.fl_exact by lia.
Qed.

Lemma constructed_instance_witness :
  ∃ inst,
    Config.construct {[ "sequenceBits" := of_int 12 ]} = Return inst
    ∧ Config.lastTimestamp inst = 0 ∧ Config.sequenceCounter inst = 0
    ∧ Config.generatedCount inst = 0 ∧ Config.overflowCount inst = 0
    ∧ ((({[ "sequenceBits" := of_int 12 ]} : gmap string jsval)
          !! "sequenceBits" = Some JUndefined
        ∧ Config.maxSequence inst = NaN ∧ of_instance inst = None)
       ∨ (∃ n, 1 ≤ n ≤ 16 ∧ of_instance inst = Some (create n)
               ∧ wf (create n))).
Proof.
  eexists. split; [reflexivity|].
  apply (constructed_instance {[ "sequenceBits" := of_int 12 ]}).
  reflexivity.
Defined.
